(** * badlngenerics: line tables of generic functions against their source spans

    A shallow embedding of [main.go]: the function index built from the
    parsed source ([getLineRanges]), the PC ranges read from the DWARF
    subprogram entries ([getPCRanges]), the address lookup ([getFunc]) and
    the walk over the line tables ([checkLines]).

    Go's [int] and [uint64] values are [Z] (the program only compares them),
    Go strings are [string] (sequences of bytes), [map[string]*Func] is a
    [gmap] from names to pointers, and [*Func] values are locations of an
    explicit heap, so that two ranges can be said to share one [Func].
    A panic is a result of its own; what [fmt.Printf] writes is a list of
    events next to the result. *)

From Stdlib Require Import ZArith List Lia Permutation Sorted String Ascii Bool.
From stdpp Require Import base option gmap strings list sorting.
Import ListNotations.
Set Warnings "-register-all".
Local Open Scope string_scope.
Local Open Scope list_scope.
Local Open Scope Z_scope.

(** ** Results, panics and printed output *)

Inductive Result (A : Type) : Type :=
| Ok (a : A)
| Panic (err : string).
Arguments Ok {A} a.
Arguments Panic {A} err.

(** The values of Go's run-time panics the program can raise. *)
Definition nilDereference : string :=
  "runtime error: invalid memory address or nil pointer dereference".
Definition indexOutOfRange : string :=
  "runtime error: index out of range [0] with length 0".

(** [must(err)]: [err] is [None] for Go's [nil]. *)
Definition must (err : option string) : Result unit :=
  match err with
  | None => Ok tt
  | Some e => Panic e
  end.

(** ** Byte strings: slicing and package [strings] *)

(** [s[:n]] for [0 <= n <= len(s)]. *)
Fixpoint str_take (n : nat) (s : string) : string :=
  match n, s with
  | O, _ => ""
  | S _, EmptyString => ""
  | S n', String a s' => String a (str_take n' s')
  end.

(** [s[n:]] for [0 <= n <= len(s)]. *)
Fixpoint str_drop (n : nat) (s : string) : string :=
  match n, s with
  | O, _ => s
  | S _, EmptyString => ""
  | S n', String _ s' => str_drop n' s'
  end.

Definition len (s : string) : Z := Z.of_nat (String.length s).

(** [in[:i]] and [in[k:]] with Go's [int] indices. *)
Definition slice_to (s : string) (i : Z) : string := str_take (Z.to_nat i) s.
Definition slice_from (s : string) (k : Z) : string := str_drop (Z.to_nat k) s.

Module strings.

(** [strings.Index(s, substr)]: the index of the first instance of [substr]
    in [s], or [-1]. *)
Fixpoint Index (s substr : string) : Z :=
  if String.prefix substr s then 0
  else match s with
       | EmptyString => -1
       | String _ s' =>
           let r := Index s' substr in
           if r <? 0 then -1 else r + 1
       end.

(** [strings.LastIndex(s, substr)]: the index of the last instance of
    [substr] in [s], or [-1]. *)
Fixpoint LastIndex (s substr : string) : Z :=
  match s with
  | EmptyString => if String.prefix substr s then 0 else -1
  | String _ s' =>
      let r := LastIndex s' substr in
      if 0 <=? r then r + 1
      else if String.prefix substr s then 0 else -1
  end.

End strings.

(** main.go, [withoutTypeParams]. *)
Definition withoutTypeParams (in_ : string) : string :=
  let i := strings.Index in_ "[" in
  let j := strings.LastIndex in_ "]" in
  if (0 <=? i) && (0 <=? j) && (i <? j)
  then slice_to in_ i +:+ slice_from in_ (j + 1)
  else in_.

(** ** The function index: [Func], pointers to it, and the heap *)

Record Func : Type := mkFunc {
  Name : string;
  startLine : Z;
  endLine : Z
}.

(** A non-nil [*Func] is a location; [None] is [nil]. *)
Definition loc : Type := positive.

Record FuncRange : Type := mkFuncRange {
  Rng : Z * Z;
  Fn : option loc
}.

Definition Rng0 (r : FuncRange) : Z := fst (Rng r).
Definition Rng1 (r : FuncRange) : Z := snd (Rng r).

(** The objects allocated so far and the map [funcs] of [main]. *)
Record Store : Type := mkStore {
  heap : gmap loc Func;
  funcs : gmap string (option loc)
}.

(** [&Func{...}] yields the address of a new object; which address is the
    allocator's choice. *)
Class Allocator : Type := {
  alloc_loc : gmap loc Func -> loc;
  alloc_fresh : forall h, h !! alloc_loc h = None
}.

Definition new_Func {alloc : Allocator} (h : gmap loc Func) (f : Func) : loc * gmap loc Func :=
  let l := alloc_loc h in (l, <[l := f]> h).

(** [funcs[name]]: [nil] when the key is absent. *)
Definition lookupFunc (fs : gmap string (option loc)) (name : string) : option loc :=
  default None (fs !! name).

(** ** The parsed source (packages [go/token], [go/ast], [go/printer])

    Modelled from the spec: the source parser is a collaborator outside the
    repository. A syntax tree is given as the program reads it: for a
    function declaration its identifier, its receiver list if it has one,
    and its start and end positions; for any other node its children. *)

Module token.

Record Position : Type := mkPosition {
  Line : Z;
  Column : Z
}.

(** A file set, as [fset.Position] reads it: from a [token.Pos] to its
    position. *)
Definition FileSet : Type := Z -> Position.

End token.

Module ast.

(** The type expressions a receiver is written with. *)
Inductive Expr : Type :=
| Ident (name : string)
| StarExpr (x : Expr)
| ParenExpr (x : Expr)
| SelectorExpr (x : Expr) (sel : string)
| IndexExpr (x index : Expr)
| IndexListExpr (x : Expr) (indices : list Expr).

Record Field : Type := mkField {
  Names : list string;
  Type_ : Expr
}.

(** [Recv] is [None] for [nil], else the [List] of the receiver's
    [FieldList]; [Name] is [n.Name.Name]; [Pos] and [End_] are [n.Pos()] and
    [n.End()]. *)
Record FuncDecl : Type := mkFuncDecl {
  Recv : option (list Field);
  Name : string;
  Pos : Z;
  End_ : Z
}.

(** A syntax tree as [ast.Inspect] walks it: a function declaration, or any
    other node with its children in the order of the walk. *)
Inductive Node : Type :=
| FuncDeclNode (d : FuncDecl)
| OtherNode (children : list Node).

End ast.

(** What [parser.ParseFile(&fset, path, nil, 0)] returned. *)
Record Parsed : Type := mkParsed {
  fset : token.FileSet;
  file : ast.Node;
  parse_err : option string
}.

(** [printer.Fprint] on a type expression. [operand] says that the
    expression stands before a selector or an index, where the printer puts
    a pointer type in parentheses; parentheses around parentheses are
    printed once. *)
Fixpoint printExpr (operand : bool) (t : ast.Expr) : string :=
  match t with
  | ast.Ident name => name
  | ast.StarExpr x =>
      if operand then "(" +:+ "*" +:+ printExpr false x +:+ ")"
      else "*" +:+ printExpr false x
  | ast.ParenExpr x =>
      match x with
      | ast.ParenExpr _ => printExpr false x
      | _ => "(" +:+ printExpr false x +:+ ")"
      end
  | ast.SelectorExpr x sel => printExpr true x +:+ "." +:+ sel
  | ast.IndexExpr x i => printExpr true x +:+ "[" +:+ printExpr false i +:+ "]"
  | ast.IndexListExpr x is_ =>
      printExpr true x +:+ "[" +:+ String.concat ", " (map (printExpr false) is_)
      +:+ "]"
  end.

(** main.go, [exprToString]: [printer.Fprint] on a receiver type. *)
Definition exprToString (t : ast.Expr) : string := printExpr false t.

(** The [case *ast.FuncDecl:] of the closure in [getLineRanges].
    [n.Recv.List[0]] panics on an empty list. *)
Definition visitFuncDecl {alloc : Allocator} (fs : token.FileSet) (n : ast.FuncDecl)
    (st : Store) : Result Store :=
  let s := fs (ast.Pos n) in
  let e := fs (ast.End_ n) in
  let name := ast.Name n in
  let name' :=
    match ast.Recv n with
    | None => Ok name
    | Some [] => Panic indexOutOfRange
    | Some (f :: _) =>
        Ok ("(" +:+ withoutTypeParams (exprToString (ast.Type_ f)) +:+ ")." +:+ name)
    end in
  match name' with
  | Panic err => Panic err
  | Ok name =>
      let (l, h) := new_Func (heap st)
                      (mkFunc ("main." +:+ name) (token.Line s) (token.Line e)) in
      Ok (mkStore h (<["main." +:+ name := Some l]> (funcs st)))
  end.

(** [ast.Inspect] with the closure of [getLineRanges]: the closure returns
    [false] at a function declaration (its children are not visited) and
    [true] at every other node. *)
Fixpoint Inspect {alloc : Allocator} (fs : token.FileSet) (n : ast.Node) (st : Store)
    : Result Store :=
  match n with
  | ast.FuncDeclNode d => visitFuncDecl fs d st
  | ast.OtherNode children =>
      (fix walk (cs : list ast.Node) (st : Store) : Result Store :=
         match cs with
         | [] => Ok st
         | c :: cs' =>
             match Inspect fs c st with
             | Ok st' => walk cs' st'
             | Panic err => Panic err
             end
         end) children st
  end.

(** main.go, [getLineRanges], from the parser's result on. *)
Definition getLineRanges {alloc : Allocator} (p : Parsed) (st : Store) : Result Store :=
  match must (parse_err p) with
  | Panic err => Panic err
  | Ok _ => Inspect (fset p) (file p) st
  end.

(** ** The debug information (package [debug/dwarf])

    Modelled from the spec: the debug-info decoder is a collaborator outside
    the repository. Its data are given as the program reads them: an entry
    by its tag and fields, a line entry by address, file (a pointer), line
    and statement flag, and a reader by what its calls of [Next] return. *)

Module dwarf.

Definition Tag : Type := Z.
Definition TagCompileUnit : Tag := 0x11.
Definition TagSubprogram : Tag := 0x2E.

Definition Attr : Type := Z.
Definition AttrName : Attr := 0x03.
Definition AttrLowpc : Attr := 0x11.
Definition AttrHighpc : Attr := 0x12.

(** The dynamic types of a [Field]'s [Val]. *)
Inductive Value : Type :=
| ValString (s : string)
| ValUint64 (n : Z)
| ValInt64 (n : Z)
| ValBool (b : bool)
| ValOffset (n : Z)
| ValBytes (b : list ascii).

Record Field : Type := mkField {
  FAttr : Attr;
  FVal : Value
}.

Record Entry : Type := mkEntry {
  Offset : Z;
  ETag : Tag;
  Children : bool;
  Fields : list Field
}.

(** [e.Val(a)]: the value of the first field with attribute [a], or [nil]. *)
Fixpoint fieldVal (fs : list Field) (a : Attr) : option Value :=
  match fs with
  | [] => None
  | f :: fs' => if FAttr f =? a then Some (FVal f) else fieldVal fs' a
  end.

Definition Val (e : Entry) (a : Attr) : option Value := fieldVal (Fields e) a.

(** The type assertions [v.(string)] and [v.(uint64)], with their [ok]. *)
Definition asString (v : option Value) : string * bool :=
  match v with
  | Some (ValString s) => (s, true)
  | _ => ("", false)
  end.

Definition asUint64 (v : option Value) : Z * bool :=
  match v with
  | Some (ValUint64 n) => (n, true)
  | _ => (0, false)
  end.

(** What one call of [rdr.Next()] returns before the end of the entries;
    past the last item it returns [nil, nil]. *)
Inductive ReadItem : Type :=
| ReadEntry (e : Entry)
| ReadErr (err : string).

Record LineFile : Type := mkLineFile {
  FileName : string
}.

(** [File] is a [*LineFile]: [None] is [nil]. *)
Record LineEntry : Type := mkLineEntry {
  Address : Z;
  File : option LineFile;
  Line : Z;
  IsStmt : bool
}.

(** What one call of [lnrdr.Next(&lne)] returns before [io.EOF]. *)
Inductive LineItem : Type :=
| LineOk (lne : LineEntry)
| LineErr (err : string).

(** The decoded data: the entries of [dw.Reader()] and, for an entry, what
    [dw.LineReader(e)] gives: an error, or no error and a reader, which is
    [nil] ([None]) for a unit with no line table and else reads the line
    table's items. *)
Record Data : Type := mkData {
  entries : list ReadItem;
  LineReader : Entry -> Result (option (list LineItem))
}.

End dwarf.

(** Entries can be told apart. *)
#[global] Instance Value_eq_dec : EqDecision dwarf.Value.
Proof. solve_decision. Defined.
#[global] Instance Field_eq_dec : EqDecision dwarf.Field.
Proof. solve_decision. Defined.
#[global] Instance Entry_eq_dec : EqDecision dwarf.Entry.
Proof. solve_decision. Defined.

(** ** Package [sort] *)

(** Modelled from the spec: [sort.Slice(x, less)] of the Go library, with
    [less] on the elements it compares. The
    library fixes the result up to the order of elements that compare equal;
    what the program relies on is its contract: the result is a rearrangement
    of the slice, it is in order when [less] is a strict weak order, and it is
    found by comparing and swapping only. *)
Class SliceSorter : Type := {
  sort_Slice : forall {A : Type}, (A -> A -> bool) -> list A -> list A;
  sort_Slice_perm : forall (A : Type) (less : A -> A -> bool) (l : list A),
    Permutation (sort_Slice less l) l;
  sort_Slice_sorted : forall (A : Type) (less : A -> A -> bool) (l : list A),
    (forall x y, less x y = true -> less y x = false) ->
    (forall x y z, less x y = false -> less y z = false -> less x z = false) ->
    StronglySorted (fun x y => less y x = false) (sort_Slice less l);
  sort_Slice_natural : forall (A B : Type) (f : A -> B)
      (lessA : A -> A -> bool) (lessB : B -> B -> bool) (l : list A),
    (forall x y, lessB (f x) (f y) = lessA x y) ->
    sort_Slice lessB (map f l) = map f (sort_Slice lessA l)
}.

(** [insertionSortLessFunc] of package [sort], the sort it runs on slices of
    at most 12 elements: each element moves left while it is less than its
    left neighbour. [sorted_rev] is the sorted prefix, last element first. *)
Fixpoint insertLess {A : Type} (less : A -> A -> bool) (x : A) (sorted_rev : list A)
    : list A :=
  match sorted_rev with
  | [] => [x]
  | y :: ys => if less x y then y :: insertLess less x ys else x :: y :: ys
  end.

Definition insertionSort {A : Type} (less : A -> A -> bool) (l : list A) : list A :=
  rev (fold_left (fun acc x => insertLess less x acc) l []).

(** ** Package [path/filepath] (slash-separated paths) *)

Module filepath.

Fixpoint stripTrailingSlashes (path : string) : string :=
  match path with
  | EmptyString => ""
  | String a rest =>
      match stripTrailingSlashes rest with
      | EmptyString => if Ascii.eqb a "/" then "" else String a ""
      | r => String a r
      end
  end.

(** [filepath.Base(path)]: the last element of the path, trailing slashes
    removed; ["."] for the empty path and ["/"] for a path of slashes. *)
Definition Base (path : string) : string :=
  if String.eqb path "" then "."
  else
    let path := stripTrailingSlashes path in
    let i := strings.LastIndex path "/" in
    let path := if 0 <=? i then slice_from path (i + 1) else path in
    if String.eqb path "" then "/" else path.

End filepath.

(** ** The PC ranges *)

Definition lessLow (a b : FuncRange) : bool := Rng0 a <? Rng0 b.

(** The loop of [getPCRanges] over the entries, [r] being the slice so far. *)
Fixpoint collectRanges (fs : gmap string (option loc)) (items : list dwarf.ReadItem)
    (r : list FuncRange) : Result (list FuncRange) :=
  match items with
  | [] => Ok r
  | dwarf.ReadErr err :: _ => Panic err
  | dwarf.ReadEntry e :: rest =>
      if negb (dwarf.ETag e =? dwarf.TagSubprogram) then collectRanges fs rest r
      else
        let '(name, okname) := dwarf.asString (dwarf.Val e dwarf.AttrName) in
        let '(low, oklow) := dwarf.asUint64 (dwarf.Val e dwarf.AttrLowpc) in
        let '(high, okhigh) := dwarf.asUint64 (dwarf.Val e dwarf.AttrHighpc) in
        if negb okname || negb oklow || negb okhigh then collectRanges fs rest r
        else
          let name := withoutTypeParams name in
          match lookupFunc fs name with
          | None => collectRanges fs rest r
          | Some l => collectRanges fs rest (r ++ [mkFuncRange (low, high) (Some l)])
          end
  end.

(** main.go, [getPCRanges]. *)
Definition getPCRanges {sorter : SliceSorter} (dw : dwarf.Data) (fs : gmap string (option loc))
    : Result (list FuncRange) :=
  match collectRanges fs (dwarf.entries dw) [] with
  | Panic err => Panic err
  | Ok r => Ok (sort_Slice lessLow r)
  end.

(** main.go, [getFunc]. *)
Fixpoint getFunc (pc : Z) (funcRanges : list FuncRange) : option loc :=
  match funcRanges with
  | [] => None
  | r :: rest =>
      if (Rng0 r <=? pc) && (pc <? Rng1 r) then Fn r else getFunc pc rest
  end.

(** ** The check of the line tables *)

(** The arguments of the [fmt.Printf] of [checkLines]: base name of the
    file, line, address, name of the function. *)
Record Violation : Type := mkViolation {
  vFile : string;
  vLine : Z;
  vAddress : Z;
  vFunc : string
}.

(** What the program prints. *)
Inductive Event : Type :=
| EvViolation (v : Violation)
| EvCompileError (path out : string).

(** A computation that prints: the events written, then its result. *)
Definition Output (A : Type) : Type := list Event * Result A.

Definition ret {A : Type} (a : A) : Output A := ([], Ok a).
Definition panic {A : Type} (err : string) : Output A := ([], Panic err).
Definition print (ev : Event) : Output unit := ([ev], Ok tt).

Definition bind {A B : Type} (m : Output A) (k : A -> Output B) : Output B :=
  match m with
  | (out, Ok a) => let (out', r) := k a in (out ++ out', r)
  | (out, Panic err) => (out, Panic err)
  end.

(** [m] and then [k]. *)
Definition andThen {A B : Type} (m : Output A) (k : Output B) : Output B :=
  bind m (fun _ => k).

Infix ">>" := andThen (at level 61, left associativity).

Definition onlyStmt : bool := false.

(** The body of the inner loop of [checkLines] for one line entry. The
    arguments of [fmt.Printf] are evaluated before it prints:
    [lne.File.Name] panics when [lne.File] is [nil]. A pointer of a range
    always names an allocated [Func] in Go; the embedding gives a panic for
    one that does not. *)
Definition checkEntry (h : gmap loc Func) (funcRanges : list FuncRange)
    (lne : dwarf.LineEntry) : Output unit :=
  if onlyStmt && negb (dwarf.IsStmt lne) then ret tt
  else
    match getFunc (dwarf.Address lne) funcRanges with
    | None => ret tt
    | Some l =>
        match h !! l with
        | None => panic nilDereference
        | Some fn =>
            if (dwarf.Line lne <? startLine fn) || (dwarf.Line lne >? endLine fn)
            then
              match dwarf.File lne with
              | None => panic nilDereference
              | Some file =>
                  print (EvViolation
                           (mkViolation (filepath.Base (dwarf.FileName file))
                                        (dwarf.Line lne) (dwarf.Address lne) (Name fn)))
              end
            else ret tt
        end
    end.

(** The inner loop of [checkLines]: the line table of one compile unit. *)
Fixpoint lineLoop (h : gmap loc Func) (funcRanges : list FuncRange)
    (items : list dwarf.LineItem) : Output unit :=
  match items with
  | [] => ret tt
  | dwarf.LineErr err :: _ => panic err
  | dwarf.LineOk lne :: rest =>
      checkEntry h funcRanges lne >> lineLoop h funcRanges rest
  end.

(** The outer loop of [checkLines] over the entries. When [dw.LineReader]
    gives no error and a [nil] reader, [must(err)] passes and the first
    [lnrdr.Next] panics. *)
Fixpoint unitLoop (lr : dwarf.Entry -> Result (option (list dwarf.LineItem)))
    (h : gmap loc Func) (funcRanges : list FuncRange)
    (items : list dwarf.ReadItem) : Output unit :=
  match items with
  | [] => ret tt
  | dwarf.ReadErr err :: _ => panic err
  | dwarf.ReadEntry e :: rest =>
      if negb (dwarf.ETag e =? dwarf.TagCompileUnit) then unitLoop lr h funcRanges rest
      else
        match lr e with
        | Panic err => panic err
        | Ok None => panic nilDereference
        | Ok (Some prog) => lineLoop h funcRanges prog >> unitLoop lr h funcRanges rest
        end
  end.

(** main.go, [checkLines]; the heap is the one [fs] and [funcRanges] point
    into. *)
Definition checkLines (dw : dwarf.Data) (h : gmap loc Func)
    (fs : gmap string (option loc)) (funcRanges : list FuncRange) : Output unit :=
  unitLoop (dwarf.LineReader dw) h funcRanges (dwarf.entries dw).

(** ** [main] *)

(** What [build(arg)] and [file.DWARF()] gave for one argument. *)
Inductive Built : Type :=
| CompileFailed (out : string)
| NoContainer
| Container (dw : Result dwarf.Data).

Record Input : Type := mkInput {
  path : string;
  parsed : Parsed;
  built : Built
}.

(** The body of the loop of [main] for one argument. *)
Definition processArg {alloc : Allocator} {sorter : SliceSorter} (h0 : gmap loc Func) (arg : Input)
    : Output (gmap loc Func) :=
  match getLineRanges (parsed arg) (mkStore h0 ∅) with
  | Panic err => panic err
  | Ok st =>
      match built arg with
      | CompileFailed out => print (EvCompileError (path arg) out) >> ret (heap st)
      | NoContainer => ret (heap st)
      | Container (Panic err) => panic err
      | Container (Ok dw) =>
          match getPCRanges dw (funcs st) with
          | Panic err => panic err
          | Ok funcRanges =>
              checkLines dw (heap st) (funcs st) funcRanges >> ret (heap st)
          end
      end
  end.

(** main.go, [main]: the arguments in order; a panic ends the run. *)
Fixpoint mainLoop {alloc : Allocator} {sorter : SliceSorter} (h0 : gmap loc Func) (args : list Input)
    : Output unit :=
  match args with
  | [] => ret tt
  | arg :: rest => bind (processArg h0 arg) (fun h => mainLoop h rest)
  end.

(** * Vocabulary of the properties *)

(** Some [[] of [s] stands before some []] of [s]. *)
Definition hasBracketPair (s : string) : Prop :=
  exists p q : nat,
    (p < q)%nat /\ String.get p s = Some "["%char /\ String.get q s = Some "]"%char.

(** The address [pc] lies in the half-open range of [r]. *)
Definition owns (r : FuncRange) (pc : Z) : Prop := Rng0 r <= pc < Rng1 r.

(** Ascending by low address. *)
Definition sortedByLow (rs : list FuncRange) : Prop :=
  StronglySorted (fun a b => Rng0 a <= Rng0 b) rs.

(** The range a subprogram record stands for, in the words of the
    specification: none for a record of another kind, or with no name, no low
    PC or no high PC, or whose stripped name the index does not have; else
    [[low, high)] with the function the index has for the stripped name. *)
Definition spec_rangeOf (fs : gmap string (option loc)) (e : dwarf.Entry)
    : option FuncRange :=
  if dwarf.ETag e =? dwarf.TagSubprogram then
    match dwarf.Val e dwarf.AttrName,
          dwarf.Val e dwarf.AttrLowpc,
          dwarf.Val e dwarf.AttrHighpc with
    | Some (dwarf.ValString name), Some (dwarf.ValUint64 low),
      Some (dwarf.ValUint64 high) =>
        match fs !! withoutTypeParams name with
        | Some (Some l) => Some (mkFuncRange (low, high) (Some l))
        | _ => None
        end
    | _, _, _ => None
    end
  else None.

Definition itemRange (fs : gmap string (option loc)) (it : dwarf.ReadItem)
    : option FuncRange :=
  match it with
  | dwarf.ReadEntry e => spec_rangeOf fs e
  | dwarf.ReadErr _ => None
  end.

(** The byte [c] occurs nowhere in [s]. *)
Definition lacks (c : ascii) (s : string) : Prop :=
  forall n : nat, String.get n s <> Some c.

(** Stripping the bracketed generic suffix, in the words of the
    specification: [c] is [name] without the part from its first [[] to its
    last []], both included. *)
Definition spec_stripped (name c : string) : Prop :=
  exists p m q : string,
    name = p +:+ "[" +:+ m +:+ "]" +:+ q /\
    lacks "[" p /\ lacks "]" q /\
    c = p +:+ q.

(** [e] is a subprogram record with a name that, stripped of its bracketed
    generic suffix, is [c], a low PC and a high PC: the record of a compiled
    instance of the generic function [c]. *)
Definition instanceOf (c : string) (e : dwarf.Entry) : Prop :=
  dwarf.ETag e = dwarf.TagSubprogram /\
  (exists name, dwarf.Val e dwarf.AttrName = Some (dwarf.ValString name) /\
                spec_stripped name c) /\
  (exists low, dwarf.Val e dwarf.AttrLowpc = Some (dwarf.ValUint64 low)) /\
  (exists high, dwarf.Val e dwarf.AttrHighpc = Some (dwarf.ValUint64 high)).

(** The function declarations the walk of [ast.Inspect] reaches, in the
    order of the walk. *)
Fixpoint funcDecls (n : ast.Node) : list ast.FuncDecl :=
  match n with
  | ast.FuncDeclNode d => [d]
  | ast.OtherNode children =>
      (fix go (cs : list ast.Node) : list ast.FuncDecl :=
         match cs with
         | [] => []
         | c :: cs' => funcDecls c ++ go cs'
         end) children
  end.

(** The closure of [getLineRanges] on declarations one after the other. *)
Fixpoint visitAll {alloc : Allocator} (fs : token.FileSet) (ds : list ast.FuncDecl)
    (st : Store) : Result Store :=
  match ds with
  | [] => Ok st
  | d :: ds' =>
      match visitFuncDecl fs d st with
      | Ok st' => visitAll fs ds' st'
      | Panic err => Panic err
      end
  end.

(** The canonical name of a declaration, in the words of the specification:
    ["main." + identifier] for a function, ["main.(" + receiver type without
    its type parameters + ")." + identifier] for a method with a receiver. *)
Definition spec_canonicalName (d : ast.FuncDecl) : option string :=
  match ast.Recv d with
  | None => Some ("main." +:+ ast.Name d)
  | Some (f :: _) =>
      Some ("main.(" +:+ withoutTypeParams (exprToString (ast.Type_ f)) +:+ ")."
            +:+ ast.Name d)
  | Some [] => None
  end.

(** A type as it is written before its type arguments or a selector: a
    pointer type stands in parentheses there. *)
Definition asOperand (x : ast.Expr) : ast.Expr :=
  match x with
  | ast.StarExpr _ => ast.ParenExpr x
  | _ => x
  end.

(** Two pointers, each in its own heap, to functions with the same fields
    (or both [nil]). *)
Definition sameFunc (h1 h2 : gmap loc Func) (p1 p2 : option loc) : Prop :=
  match p1, p2 with
  | None, None => True
  | Some l1, Some l2 => exists fn, h1 !! l1 = Some fn /\ h2 !! l2 = Some fn
  | _, _ => False
  end.

(** Two indexes with the same names, each name for functions with the same
    fields: the same function index up to where its objects live. *)
Definition sameIndex (st1 st2 : Store) : Prop :=
  forall k : string,
    match funcs st1 !! k, funcs st2 !! k with
    | None, None => True
    | Some p1, Some p2 => sameFunc (heap st1) (heap st2) p1 p2
    | _, _ => False
    end.

Definition sameRange (h1 h2 : gmap loc Func) (r1 r2 : FuncRange) : Prop :=
  Rng r1 = Rng r2 /\ sameFunc h1 h2 (Fn r1) (Fn r2).

(** What a run shows: the events printed, in order, and the panic if any. *)
Definition observable {A : Type} (o : Output A) : list Event * option string :=
  (fst o, match snd o with Ok _ => None | Panic err => Some err end).

(** The checking stages of [main]: [getPCRanges], then [checkLines]. *)
Definition checkStages {sorter : SliceSorter} (dw : dwarf.Data) (st : Store)
    : Output unit :=
  match getPCRanges dw (funcs st) with
  | Panic err => panic err
  | Ok funcRanges => checkLines dw (heap st) (funcs st) funcRanges
  end.

(** ** A worked example

    A source with [func Base[T any](...)] on lines 3 to 5 and a method
    [func (t *Box[T]) Get() T] on lines 10 to 12, and debug information with
    two instances of [Base], a wrapper the index does not have, and an empty
    range. *)

Definition ex_sub (off : Z) (name : string) (low high : Z) : dwarf.Entry :=
  dwarf.mkEntry off dwarf.TagSubprogram false
    [dwarf.mkField dwarf.AttrName (dwarf.ValString name);
     dwarf.mkField dwarf.AttrLowpc (dwarf.ValUint64 low);
     dwarf.mkField dwarf.AttrHighpc (dwarf.ValUint64 high)].

Definition ex_cu : dwarf.Entry :=
  dwarf.mkEntry 11 dwarf.TagCompileUnit true
    [dwarf.mkField dwarf.AttrName (dwarf.ValString "main")].

(** A subprogram record with no low PC (an abstract or external one). *)
Definition ex_nolow : dwarf.Entry :=
  dwarf.mkEntry 60 dwarf.TagSubprogram false
    [dwarf.mkField dwarf.AttrName (dwarf.ValString "main.Base[int]")].

Definition ex_index : gmap string (option loc) :=
  {[ "main.Base" := Some 1%positive ]}.

Definition ex_heap : gmap loc Func :=
  {[ 1%positive := mkFunc "main.Base" 3 5 ]}.

Definition ex_file : option dwarf.LineFile :=
  Some (dwarf.mkLineFile "/tmp/x/file.go").

Definition ex_line (addr line : Z) : dwarf.LineItem :=
  dwarf.LineOk (dwarf.mkLineEntry addr ex_file line true).

Definition ex_prog : list dwarf.LineItem :=
  [ex_line 150 4; ex_line 250 99; ex_line 950 99].

Definition ex_entries : list dwarf.ReadItem :=
  [dwarf.ReadEntry ex_cu;
   dwarf.ReadEntry (ex_sub 20 "main.Base[int]" 200 300);
   dwarf.ReadEntry (ex_sub 30 "main.Base[string]" 100 200);
   dwarf.ReadEntry (ex_sub 40 "main.other" 300 400)].

(** The line table of a compile unit: [prog] for [ex_cu], empty otherwise. *)
Definition ex_lines (prog : list dwarf.LineItem) (e : dwarf.Entry)
    : Result (option (list dwarf.LineItem)) :=
  if decide (e = ex_cu) then Ok (Some prog) else Ok (Some []).

Definition ex_dw : dwarf.Data := dwarf.mkData ex_entries (ex_lines ex_prog).

(** The same with a record whose low PC equals its high PC. *)
Definition ex_dw_empty_range : dwarf.Data :=
  dwarf.mkData (ex_entries ++ [dwarf.ReadEntry (ex_sub 50 "main.Base[bool]" 500 500)])
               (ex_lines ex_prog).

(** A source whose only function is [Base], on lines 3 to 5. *)
Definition ex_parsed_base : Parsed :=
  mkParsed (fun p => token.mkPosition p 1)
    (ast.OtherNode [ast.FuncDeclNode (ast.mkFuncDecl None "Base" 3 5)]) None.

Definition ex_parsed : Parsed :=
  mkParsed (fun p => token.mkPosition p 1)
    (ast.OtherNode
       [ast.OtherNode [];
        ast.FuncDeclNode (ast.mkFuncDecl None "Base" 3 5);
        ast.FuncDeclNode
          (ast.mkFuncDecl
             (Some [ast.mkField ["t"]
                      (ast.StarExpr (ast.IndexExpr (ast.Ident "Box") (ast.Ident "T")))])
             "Get" 10 12)])
    None.

(** The ranges of [ex_dw] against [ex_index], and two ranges that overlap. *)
Definition ex_ranges : list FuncRange :=
  [mkFuncRange (100, 200) (Some 1%positive); mkFuncRange (200, 300) (Some 1%positive)].

Definition ex_overlap : list FuncRange :=
  [mkFuncRange (10, 20) (Some 1%positive); mkFuncRange (15, 30) (Some 2%positive)].

(** * Properties *)

(** ** Searching a byte in a string *)

Module strings_facts.
Import strings.

Lemma prefix_byte (c : ascii) (s : string) :
  String.prefix (String c "") s =
  match s with
  | EmptyString => false
  | String a _ => if ascii_dec c a then true else false
  end.
Proof.
  destruct s as [|a s]; simpl; [reflexivity|].
  destruct (ascii_dec c a); [|reflexivity]. destruct s; reflexivity.
Qed.

Lemma Index_nil (c : ascii) : Index "" (String c "") = -1.
Proof. reflexivity. Qed.

Lemma Index_cons (c a : ascii) (s : string) :
  Index (String a s) (String c "") =
  if ascii_dec c a then 0
  else if Index s (String c "") <? 0 then -1 else Index s (String c "") + 1.
Proof.
  cbn [Index]. rewrite prefix_byte. destruct (ascii_dec c a); reflexivity.
Qed.

Lemma LastIndex_nil (c : ascii) : LastIndex "" (String c "") = -1.
Proof. reflexivity. Qed.

Lemma LastIndex_cons (c a : ascii) (s : string) :
  LastIndex (String a s) (String c "") =
  if 0 <=? LastIndex s (String c "") then LastIndex s (String c "") + 1
  else if ascii_dec c a then 0 else -1.
Proof.
  cbn [LastIndex]. rewrite prefix_byte.
  destruct (ascii_dec c a); reflexivity.
Qed.

Lemma len_cons (a : ascii) (s : string) : len (String a s) = len s + 1.
Proof. unfold len. simpl String.length. lia. Qed.

Lemma len_nonneg (s : string) : 0 <= len s.
Proof. unfold len. lia. Qed.

Lemma str_app_nil (q : string) : "" +:+ q = q.
Proof. reflexivity. Qed.

Lemma str_app_cons (a : ascii) (p q : string) :
  String a p +:+ q = String a (p +:+ q).
Proof. reflexivity. Qed.

Lemma len_app (p q : string) : len (p +:+ q) = len p + len q.
Proof.
  induction p as [|a p IH].
  - rewrite str_app_nil. unfold len. simpl. lia.
  - rewrite str_app_cons, !len_cons, IH. lia.
Qed.

Lemma Index_bounds (c : ascii) (s : string) :
  -1 <= Index s (String c "") <= len s - 1.
Proof.
  induction s as [|a s IH].
  - rewrite Index_nil. change (len "") with 0. lia.
  - rewrite Index_cons, len_cons. pose proof (len_nonneg s).
    destruct (ascii_dec c a); [lia|].
    destruct (Z.ltb_spec (Index s (String c "")) 0); lia.
Qed.

Lemma LastIndex_bounds (c : ascii) (s : string) :
  -1 <= LastIndex s (String c "") <= len s - 1.
Proof.
  induction s as [|a s IH].
  - rewrite LastIndex_nil. change (len "") with 0. lia.
  - rewrite LastIndex_cons, len_cons.
    destruct (Z.leb_spec 0 (LastIndex s (String c ""))); [lia|].
    pose proof (len_nonneg s). destruct (ascii_dec c a); lia.
Qed.

Lemma Index_take (c : ascii) (s : string) :
  0 <= Index s (String c "") ->
  Index (slice_to s (Index s (String c ""))) (String c "") = -1.
Proof.
  unfold slice_to. induction s as [|a s IH]; [cbn; lia|].
  rewrite Index_cons. destruct (ascii_dec c a) as [->|Hne]; [reflexivity|].
  destruct (Z.ltb_spec (Index s (String c "")) 0) as [|Hge]; [lia|]. intros _.
  rewrite Z2Nat.inj_add by lia. rewrite Nat.add_1_r. cbn [str_take].
  rewrite Index_cons. destruct (ascii_dec c a); [contradiction|].
  rewrite (IH Hge). reflexivity.
Qed.

Lemma LastIndex_drop (c : ascii) (s : string) :
  LastIndex (slice_from s (LastIndex s (String c "") + 1)) (String c "") = -1.
Proof.
  unfold slice_from. induction s as [|a s IH]; [reflexivity|].
  rewrite LastIndex_cons.
  destruct (Z.leb_spec 0 (LastIndex s (String c ""))) as [Hge|Hlt].
  - rewrite Z2Nat.inj_add by lia. rewrite Nat.add_1_r. cbn [str_drop]. exact IH.
  - pose proof (LastIndex_bounds c s) as Hb.
    assert (Hm : LastIndex s (String c "") = -1) by lia.
    rewrite Hm in IH. change (Z.to_nat (-1 + 1)) with 0%nat in IH.
    cbn [str_drop] in IH.
    destruct (ascii_dec c a) as [->|Hne].
    + change (Z.to_nat (0 + 1)) with 1%nat. cbn [str_drop]. exact IH.
    + change (Z.to_nat (-1 + 1)) with 0%nat. cbn [str_drop].
      rewrite LastIndex_cons, IH. cbn.
      destruct (ascii_dec c a); [contradiction|reflexivity].
Qed.

Lemma Index_app (c : ascii) (p q : string) :
  Index p (String c "") = -1 ->
  Index (p +:+ q) (String c "") =
  if Index q (String c "") <? 0 then -1 else len p + Index q (String c "").
Proof.
  induction p as [|a p IH]; intros Hp.
  - rewrite str_app_nil. change (len "") with 0.
    pose proof (Index_bounds c q).
    destruct (Z.ltb_spec (Index q (String c "")) 0); lia.
  - rewrite str_app_cons. rewrite Index_cons in *. rewrite len_cons.
    destruct (ascii_dec c a); [discriminate|].
    pose proof (Index_bounds c p). pose proof (len_nonneg p).
    destruct (Z.ltb_spec (Index p (String c "")) 0); [|lia].
    rewrite IH by lia.
    pose proof (Index_bounds c q).
    destruct (Z.ltb_spec (Index q (String c "")) 0).
    + reflexivity.
    + destruct (Z.ltb_spec (len p + Index q (String c "")) 0); lia.
Qed.

Lemma LastIndex_app (c : ascii) (p q : string) :
  LastIndex q (String c "") = -1 ->
  LastIndex (p +:+ q) (String c "") = LastIndex p (String c "").
Proof.
  intros Hq. induction p as [|a p IH].
  - rewrite str_app_nil, Hq. reflexivity.
  - rewrite str_app_cons, !LastIndex_cons, IH. reflexivity.
Qed.

Lemma Index_get (c : ascii) (s : string) :
  0 <= Index s (String c "") ->
  String.get (Z.to_nat (Index s (String c ""))) s = Some c.
Proof.
  induction s as [|a s IH]; [cbn; lia|].
  rewrite Index_cons. destruct (ascii_dec c a) as [->|Hne]; [reflexivity|].
  destruct (Z.ltb_spec (Index s (String c "")) 0) as [|Hge]; [lia|]. intros _.
  rewrite Z2Nat.inj_add by lia. rewrite Nat.add_1_r. cbn [String.get]. auto.
Qed.

Lemma LastIndex_get (c : ascii) (s : string) :
  0 <= LastIndex s (String c "") ->
  String.get (Z.to_nat (LastIndex s (String c ""))) s = Some c.
Proof.
  induction s as [|a s IH]; [cbn; lia|].
  rewrite LastIndex_cons.
  destruct (Z.leb_spec 0 (LastIndex s (String c ""))) as [Hge|Hlt].
  - intros _. rewrite Z2Nat.inj_add by lia. rewrite Nat.add_1_r.
    cbn [String.get]. auto.
  - destruct (ascii_dec c a) as [->|Hne]; [reflexivity|lia].
Qed.

Lemma get_Index (c : ascii) (s : string) (p : nat) :
  String.get p s = Some c -> 0 <= Index s (String c "") <= Z.of_nat p.
Proof.
  revert p. induction s as [|a s IH]; intros p Hp; [destruct p; discriminate|].
  rewrite Index_cons. destruct (ascii_dec c a) as [->|Hne]; [lia|].
  destruct p as [|p]; [cbn in Hp; congruence|]. cbn [String.get] in Hp.
  specialize (IH p Hp).
  destruct (Z.ltb_spec (Index s (String c "")) 0); lia.
Qed.

Lemma get_LastIndex (c : ascii) (s : string) (q : nat) :
  String.get q s = Some c -> Z.of_nat q <= LastIndex s (String c "").
Proof.
  revert q. induction s as [|a s IH]; intros q Hq; [destruct q; discriminate|].
  rewrite LastIndex_cons. destruct q as [|q].
  - cbn in Hq. injection Hq as ->. pose proof (LastIndex_bounds c s).
    destruct (Z.leb_spec 0 (LastIndex s (String c ""))); [lia|].
    destruct (ascii_dec c c); [lia|contradiction].
  - cbn [String.get] in Hq. specialize (IH q Hq).
    destruct (Z.leb_spec 0 (LastIndex s (String c ""))); lia.
Qed.

Lemma len_slice_to (s : string) (i : Z) :
  0 <= i <= len s -> len (slice_to s i) = i.
Proof.
  unfold slice_to, len. intros Hi.
  assert (Hn : (Z.to_nat i <= String.length s)%nat) by lia.
  enough (String.length (str_take (Z.to_nat i) s) = Z.to_nat i) by lia.
  clear Hi. revert s Hn. induction (Z.to_nat i) as [|n IH]; intros s Hn.
  - reflexivity.
  - destruct s as [|a s]; simpl in *; [lia|]. rewrite IH; lia.
Qed.

Lemma len_slice_from (s : string) (k : Z) :
  0 <= k <= len s -> len (slice_from s k) = len s - k.
Proof.
  unfold slice_from, len. intros Hk.
  assert (Hn : (Z.to_nat k <= String.length s)%nat) by lia.
  enough (String.length (str_drop (Z.to_nat k) s) =
          (String.length s - Z.to_nat k)%nat) by lia.
  clear Hk. revert s Hn. induction (Z.to_nat k) as [|n IH]; intros s Hn.
  - simpl. lia.
  - destruct s as [|a s]; simpl in *; [lia|]. rewrite IH; lia.
Qed.

End strings_facts.

(** ** The stripping of type parameters *)

Section WithoutTypeParams.
Import strings strings_facts.

(** The slices of [withoutTypeParams] are within the string: the guard
    [i >= 0 && j >= 0 && j > i] keeps [in[:i]] and [in[j+1:]] from
    panicking. *)
Lemma withoutTypeParams_slices_in_range (s : string) :
  let i := Index s "[" in
  let j := LastIndex s "]" in
  0 <= i -> 0 <= j -> i < j -> 0 <= i <= len s /\ 0 <= j + 1 <= len s.
Proof.
  intros i j Hi Hj Hij.
  pose proof (Index_bounds "[" s). pose proof (LastIndex_bounds "]" s).
  subst i j. lia.
Qed.

(** A string made of a part with no [[] and then a part with no []] is
    left as it is. *)
Lemma withoutTypeParams_app_fixed (p q : string) :
  Index p "[" = -1 -> LastIndex q "]" = -1 ->
  withoutTypeParams (p +:+ q) = p +:+ q.
Proof.
  intros Hp Hq. unfold withoutTypeParams.
  rewrite (Index_app "[" p q Hp), (LastIndex_app "]" p q Hq).
  pose proof (LastIndex_bounds "]" p) as Hj.
  pose proof (Index_bounds "[" q) as Hi.
  destruct (Z.ltb_spec (Index q "[") 0) as [Hlt|Hge].
  - reflexivity.
  - destruct (Z.ltb_spec (len p + Index q "[") (LastIndex p "]")) as [Hlt|_]; [lia|].
    rewrite andb_false_r. reflexivity.
Qed.

Lemma withoutTypeParams_guard_pair (s : string) :
  0 <= Index s "[" -> 0 <= LastIndex s "]" -> Index s "[" < LastIndex s "]" ->
  hasBracketPair s.
Proof.
  intros Hi Hj Hij.
  exists (Z.to_nat (Index s "[")), (Z.to_nat (LastIndex s "]")).
  split; [lia|]. split; [apply Index_get | apply LastIndex_get]; assumption.
Qed.

Lemma hasBracketPair_guard (s : string) :
  hasBracketPair s ->
  0 <= Index s "[" /\ 0 <= LastIndex s "]" /\ Index s "[" < LastIndex s "]".
Proof.
  intros (p & q & Hpq & Hp & Hq).
  apply get_Index in Hp. apply get_LastIndex in Hq. lia.
Qed.

(** Where the guard holds the result is shorter than the input. *)
Lemma withoutTypeParams_shorter (s : string) :
  hasBracketPair s -> len (withoutTypeParams s) < len s.
Proof.
  intros Hs. destruct (hasBracketPair_guard s Hs) as (Hi & Hj & Hij).
  unfold withoutTypeParams.
  destruct (Z.leb_spec 0 (Index s "[")); [|lia].
  destruct (Z.leb_spec 0 (LastIndex s "]")); [|lia].
  destruct (Z.ltb_spec (Index s "[") (LastIndex s "]")); [|lia].
  cbn [andb].
  destruct (withoutTypeParams_slices_in_range s Hi Hj Hij) as [Hr1 Hr2].
  rewrite len_app, len_slice_to, len_slice_from by assumption. lia.
Qed.

(** The stripping changes a string exactly when it has a [[] before a []]. *)
Lemma withoutTypeParams_id_iff (s : string) :
  withoutTypeParams s = s <-> ~ hasBracketPair s.
Proof.
  split.
  - intros Heq Hs. apply withoutTypeParams_shorter in Hs. rewrite Heq in Hs. lia.
  - intros Hs. unfold withoutTypeParams.
    destruct (Z.leb_spec 0 (Index s "[")); [|reflexivity].
    destruct (Z.leb_spec 0 (LastIndex s "]")); [|reflexivity].
    destruct (Z.ltb_spec (Index s "[") (LastIndex s "]")); [|reflexivity].
    exfalso. apply Hs. apply withoutTypeParams_guard_pair; assumption.
Qed.

(** C10. [withoutTypeParams] is idempotent, and it is the identity on every
    string in which no [[] stands before a []]. *)
Theorem withoutTypeParams_idempotent_and_identity :
  (forall s : string,
     withoutTypeParams (withoutTypeParams s) = withoutTypeParams s) /\
  (forall s : string, ~ hasBracketPair s -> withoutTypeParams s = s).
Proof.
  split.
  - intros s.
    assert (Hcases : withoutTypeParams s = s \/
                     (0 <= Index s "[" /\
                      withoutTypeParams s =
                      slice_to s (Index s "[") +:+ slice_from s (LastIndex s "]" + 1))).
    { unfold withoutTypeParams.
      destruct (Z.leb_spec 0 (Index s "[")); [|left; reflexivity].
      destruct (Z.leb_spec 0 (LastIndex s "]")); [|left; reflexivity].
      destruct (Z.ltb_spec (Index s "[") (LastIndex s "]")); [|left; reflexivity].
      right. split; [assumption|reflexivity]. }
    destruct Hcases as [Hid|[Hi Hcut]].
    + rewrite Hid. exact Hid.
    + rewrite Hcut. apply withoutTypeParams_app_fixed.
      * apply Index_take. exact Hi.
      * apply LastIndex_drop.
  - intros s Hs. apply withoutTypeParams_id_iff. exact Hs.
Qed.

(** A name with type parameters, and one with a []] before its [[]. *)
Lemma withoutTypeParams_idempotent_and_identity_witness :
  withoutTypeParams (withoutTypeParams "Box[K, V].Get") =
  withoutTypeParams "Box[K, V].Get" /\
  withoutTypeParams "x]y[z" = "x]y[z".
Proof.
  split.
  - apply (proj1 withoutTypeParams_idempotent_and_identity).
  - apply (proj2 withoutTypeParams_idempotent_and_identity).
    intros Hpair. apply hasBracketPair_guard in Hpair as (_ & _ & Hlt).
    vm_compute in Hlt. discriminate Hlt.
Defined.

End WithoutTypeParams.

(** ** The two positions [withoutTypeParams] cuts at *)

Section Slices.
Import strings strings_facts.

Lemma str_app_assoc (a b c : string) : (a +:+ b) +:+ c = a +:+ (b +:+ c).
Proof.
  induction a as [|x a IH]; [reflexivity|].
  rewrite !str_app_cons, IH. reflexivity.
Qed.

Lemma LastIndex_app_found (c : ascii) (x q : string) :
  LastIndex q (String c "") = -1 ->
  LastIndex (x +:+ String c q) (String c "") = len x.
Proof.
  intros Hq. induction x as [|a x IH].
  - rewrite str_app_nil, LastIndex_cons, Hq. cbn.
    destruct (ascii_dec c c); [reflexivity|contradiction].
  - rewrite str_app_cons, LastIndex_cons, IH, len_cons.
    pose proof (len_nonneg x). destruct (Z.leb_spec 0 (len x)); [reflexivity|lia].
Qed.

Lemma str_take_app (p r : string) : str_take (String.length p) (p +:+ r) = p.
Proof.
  induction p as [|a p IH]; [reflexivity|].
  rewrite str_app_cons. cbn [String.length str_take]. rewrite IH. reflexivity.
Qed.

Lemma str_drop_app (p r : string) : str_drop (String.length p) (p +:+ r) = r.
Proof.
  induction p as [|a p IH]; [reflexivity|].
  rewrite str_app_cons. cbn [String.length str_drop]. exact IH.
Qed.

(** Where the first [[] and the last []] of [p[m]q] are, and what the two
    slices around them hold. *)
Lemma cut_positions (p m q : string) :
  Index p "[" = -1 ->
  LastIndex q "]" = -1 ->
  let s := p +:+ String "[" (m +:+ String "]" q) in
  Index s "[" = len p /\
  LastIndex s "]" = len p + len m + 1 /\
  slice_to s (len p) = p /\
  slice_from s (len p + len m + 1 + 1) = q.
Proof.
  intros Hp Hq s. subst s. split; [|split; [|split]].
  - rewrite (Index_app "[" p _ Hp), Index_cons.
    destruct (ascii_dec "[" "["); [|contradiction].
    rewrite Z.ltb_irrefl. cbv iota. lia.
  - replace (p +:+ String "[" (m +:+ String "]" q))
      with ((p +:+ String "[" m) +:+ String "]" q)
      by (rewrite str_app_assoc, str_app_cons; reflexivity).
    rewrite (LastIndex_app_found "]" _ q Hq), len_app, len_cons. lia.
  - unfold slice_to, len. rewrite Nat2Z.id. apply str_take_app.
  - unfold slice_from.
    replace (Z.to_nat (len p + len m + 1 + 1))
      with (String.length ((p +:+ String "[" m) +:+ "]")).
    + rewrite <- (str_drop_app ((p +:+ String "[" m) +:+ "]") q) at 2.
      f_equal. rewrite !str_app_assoc, !str_app_cons, str_app_nil. reflexivity.
    + assert (Hl : len ((p +:+ String "[" m) +:+ "]") = len p + (len m + 1) + 1).
      { rewrite !len_app, len_cons. reflexivity. }
      unfold len in *. lia.
Qed.

(** What [withoutTypeParams] returns on [p[m]q]. *)
Lemma cut_between (p m q : string) :
  Index p "[" = -1 -> LastIndex q "]" = -1 ->
  withoutTypeParams (p +:+ String "[" (m +:+ String "]" q)) = p +:+ q.
Proof.
  intros Hp Hq.
  destruct (cut_positions p m q Hp Hq) as (Hi & Hj & Hto & Hfrom).
  unfold withoutTypeParams. rewrite Hi, Hj, Hto, Hfrom.
  pose proof (len_nonneg p). pose proof (len_nonneg m).
  destruct (Z.leb_spec 0 (len p)); [|lia].
  destruct (Z.leb_spec 0 (len p + len m + 1)); [|lia].
  destruct (Z.ltb_spec (len p) (len p + len m + 1)); [|lia].
  reflexivity.
Qed.

Lemma lacks_Index (c : ascii) (s : string) :
  lacks c s -> Index s (String c "") = -1.
Proof.
  intros Hs. pose proof (Index_bounds c s) as Hb.
  destruct (Z.ltb_spec (Index s (String c "")) 0) as [|Hge]; [lia|].
  exfalso. exact (Hs _ (Index_get c s Hge)).
Qed.

Lemma lacks_LastIndex (c : ascii) (s : string) :
  lacks c s -> LastIndex s (String c "") = -1.
Proof.
  intros Hs. pose proof (LastIndex_bounds c s) as Hb.
  destruct (Z.ltb_spec (LastIndex s (String c "")) 0) as [|Hge]; [lia|].
  exfalso. exact (Hs _ (LastIndex_get c s Hge)).
Qed.

Lemma Index_lacks (c : ascii) (s : string) :
  Index s (String c "") = -1 -> lacks c s.
Proof.
  intros Hs n Hn. pose proof (get_Index c s n Hn). lia.
Qed.

(** [withoutTypeParams] strips the bracketed suffix of the specification. *)
Lemma withoutTypeParams_stripped (name c : string) :
  spec_stripped name c -> withoutTypeParams name = c.
Proof.
  intros (p & m & q & -> & Hp & Hq & ->).
  change ("[" +:+ m +:+ "]" +:+ q) with (String "[" (m +:+ String "]" q)).
  apply cut_between; [apply lacks_Index|apply lacks_LastIndex]; assumption.
Qed.

End Slices.

(** ** The insertion sort of package [sort] meets the contract of [sort.Slice] *)

Section InsertionSort.
Context {A : Type} (less : A -> A -> bool).

Lemma insertLess_perm (x : A) (acc : list A) :
  Permutation (insertLess less x acc) (x :: acc).
Proof.
  induction acc as [|y ys IH]; simpl; [reflexivity|].
  destruct (less x y); [|reflexivity].
  rewrite IH. apply perm_swap.
Qed.

Lemma insertion_fold_perm (l acc : list A) :
  Permutation (fold_left (fun acc x => insertLess less x acc) l acc) (rev l ++ acc).
Proof.
  revert acc. induction l as [|x l IH]; intros acc; simpl; [reflexivity|].
  rewrite IH, insertLess_perm, <- app_assoc. simpl.
  apply Permutation_app_head. reflexivity.
Qed.

Lemma insertionSort_perm (l : list A) : Permutation (insertionSort less l) l.
Proof.
  unfold insertionSort. rewrite <- Permutation_rev, insertion_fold_perm.
  rewrite app_nil_r. symmetry. apply Permutation_rev.
Qed.

Hypothesis less_asym : forall x y, less x y = true -> less y x = false.
Hypothesis less_negtrans :
  forall x y z, less x y = false -> less y z = false -> less x z = false.

Lemma insertLess_sorted (x : A) (acc : list A) :
  StronglySorted (fun a b => less a b = false) acc ->
  StronglySorted (fun a b => less a b = false) (insertLess less x acc).
Proof.
  induction acc as [|y ys IH]; intros Hs; simpl.
  - repeat constructor.
  - apply StronglySorted_cons in Hs as [Hy Hys].
    destruct (less x y) eqn:Hxy.
    + apply StronglySorted_cons. split; [|auto].
      rewrite (insertLess_perm x ys). constructor; [auto|assumption].
    + apply StronglySorted_cons. split; [|apply StronglySorted_cons; auto].
      constructor; [assumption|].
      eapply Forall_impl; [exact Hy|]. intros z Hyz. simpl in Hyz. eauto.
Qed.

Lemma insertion_fold_sorted (l acc : list A) :
  StronglySorted (fun a b => less a b = false) acc ->
  StronglySorted (fun a b => less a b = false)
    (fold_left (fun acc x => insertLess less x acc) l acc).
Proof.
  revert acc. induction l as [|x l IH]; intros acc Hs; simpl; [assumption|].
  apply IH, insertLess_sorted, Hs.
Qed.

Lemma StronglySorted_rev_flip (R : A -> A -> Prop) (l : list A) :
  StronglySorted R l -> StronglySorted (fun x y => R y x) (rev l).
Proof.
  induction 1 as [|a l Hl IH Ha]; simpl; [constructor|].
  apply StronglySorted_app_2; [|assumption|repeat constructor].
  intros x1 x2 Hx1 Hx2. apply list_elem_of_singleton in Hx2 as ->.
  rewrite Forall_forall in Ha. apply Ha.
  apply list_elem_of_In. apply in_rev. apply list_elem_of_In. exact Hx1.
Qed.

Lemma insertionSort_sorted (l : list A) :
  StronglySorted (fun x y => less y x = false) (insertionSort less l).
Proof.
  unfold insertionSort.
  apply (StronglySorted_rev_flip (fun a b => less a b = false)).
  apply insertion_fold_sorted. constructor.
Qed.

End InsertionSort.

Lemma insertLess_natural {A B : Type} (f : A -> B)
    (lessA : A -> A -> bool) (lessB : B -> B -> bool) (x : A) (acc : list A) :
  (forall x y, lessB (f x) (f y) = lessA x y) ->
  insertLess lessB (f x) (map f acc) = map f (insertLess lessA x acc).
Proof.
  intros Hf. induction acc as [|y ys IH]; simpl; [reflexivity|].
  rewrite Hf. destruct (lessA x y); simpl; [rewrite IH|]; reflexivity.
Qed.

Lemma insertionSort_natural {A B : Type} (f : A -> B)
    (lessA : A -> A -> bool) (lessB : B -> B -> bool) (l : list A) :
  (forall x y, lessB (f x) (f y) = lessA x y) ->
  insertionSort lessB (map f l) = map f (insertionSort lessA l).
Proof.
  intros Hf. unfold insertionSort. rewrite map_rev. f_equal.
  change (@nil B) with (map f []). generalize (@nil A) as acc.
  induction l as [|x l IH]; intros acc; simpl; [reflexivity|].
  rewrite (insertLess_natural f lessA lessB) by assumption. apply IH.
Qed.

(** The insertion sort as a [sort.Slice]. *)
Definition insertionSorter : SliceSorter :=
  {| sort_Slice := @insertionSort;
     sort_Slice_perm := @insertionSort_perm;
     sort_Slice_sorted := fun A less l Ha Ht => @insertionSort_sorted A less Ha Ht l;
     sort_Slice_natural := @insertionSort_natural |}.

(** Two allocators: the least location not in use, and the least one above
    a reserved location. *)
Definition leastFree (h : gmap loc Func) : loc := fresh (dom h : gset positive).

Lemma leastFree_fresh (h : gmap loc Func) : h !! leastFree h = None.
Proof.
  unfold leastFree. apply (not_elem_of_dom (D := gset positive)).
  apply (is_fresh (dom h : gset positive)).
Qed.

Definition leastFreeAllocator : Allocator :=
  {| alloc_loc := leastFree; alloc_fresh := leastFree_fresh |}.

Definition leastFreeAbove (reserved : loc) (h : gmap loc Func) : loc :=
  fresh ({[reserved]} ∪ dom h : gset positive).

Lemma leastFreeAbove_fresh (reserved : loc) (h : gmap loc Func) :
  h !! leastFreeAbove reserved h = None.
Proof.
  unfold leastFreeAbove. apply (not_elem_of_dom (D := gset positive)).
  pose proof (is_fresh ({[reserved]} ∪ dom h : gset positive)) as Hfresh.
  set_solver.
Qed.

Definition reservingAllocator (reserved : loc) : Allocator :=
  {| alloc_loc := leastFreeAbove reserved;
     alloc_fresh := leastFreeAbove_fresh reserved |}.

(** ** The address lookup *)

Lemma getFunc_skip (pc : Z) (pre rest : list FuncRange) :
  Forall (fun x => ~ owns x pc) pre -> getFunc pc (pre ++ rest) = getFunc pc rest.
Proof.
  induction 1 as [|x pre Hx _ IH]; simpl; [reflexivity|].
  unfold owns in Hx.
  destruct (Z.leb_spec (Rng0 x) pc); destruct (Z.ltb_spec pc (Rng1 x));
    simpl; try exact IH. lia.
Qed.

Lemma getFunc_hit (pc : Z) (r : FuncRange) (rest : list FuncRange) :
  owns r pc -> getFunc pc (r :: rest) = Fn r.
Proof.
  unfold owns. intros Hr. simpl.
  destruct (Z.leb_spec (Rng0 r) pc); destruct (Z.ltb_spec pc (Rng1 r));
    simpl; try reflexivity; lia.
Qed.

Lemma getFunc_none (pc : Z) (rs : list FuncRange) :
  Forall (fun x => ~ owns x pc) rs -> getFunc pc rs = None.
Proof.
  intros Hrs. rewrite <- (app_nil_r rs). rewrite getFunc_skip by assumption.
  reflexivity.
Qed.

(** Either some range owns the address, and the sequence splits at the first
    such range, or none does. *)
Lemma first_owner_split (pc : Z) (rs : list FuncRange) :
  (exists pre r post,
      rs = pre ++ r :: post /\ Forall (fun x => ~ owns x pc) pre /\ owns r pc) \/
  Forall (fun x => ~ owns x pc) rs.
Proof.
  induction rs as [|x rs IH].
  - right. constructor.
  - destruct (decide (Rng0 x <= pc < Rng1 x)) as [Hx|Hx].
    + left. exists [], x, rs. repeat split; [constructor|apply Hx..].
    + destruct IH as [(pre & r & post & -> & Hpre & Hr)|Hnone].
      * left. exists (x :: pre), r, post. repeat split; [|apply Hr..].
        constructor; assumption.
      * right. constructor; assumption.
Qed.

(** C2. On a sequence sorted ascending by low address [getFunc] returns the
    function of the first range with [low <= pc < high]; that range has the
    smallest low address among the ranges that contain [pc]; and [getFunc]
    returns [nil] when no range contains [pc]. *)
Theorem getFunc_first_owner (pc : Z) (rs : list FuncRange) :
  sortedByLow rs ->
  (forall pre r post,
      rs = pre ++ r :: post ->
      Forall (fun x => ~ owns x pc) pre ->
      owns r pc ->
      getFunc pc rs = Fn r /\
      Forall (fun x => owns x pc -> Rng0 r <= Rng0 x) rs) /\
  (Forall (fun x => ~ owns x pc) rs -> getFunc pc rs = None).
Proof.
  intros Hsorted. split; [|apply getFunc_none].
  intros pre r post -> Hpre Hr. split.
  - rewrite getFunc_skip by assumption. apply getFunc_hit, Hr.
  - unfold sortedByLow in Hsorted.
    apply StronglySorted_app in Hsorted as (_ & _ & Hpost).
    apply StronglySorted_cons in Hpost as [Hle _].
    apply Forall_app. split; [|constructor].
    + eapply Forall_impl; [exact Hpre|]. intros x Hx Hox. contradiction.
    + intros _. lia.
    + eapply Forall_impl; [exact Hle|]. intros x Hx _. exact Hx.
Qed.

(** Address 17 lies in both ranges of [ex_overlap]: the first one wins. *)
Lemma getFunc_first_owner_witness :
  getFunc 17 ex_overlap = Some 1%positive /\ getFunc 40 ex_overlap = None.
Proof.
  assert (Hs : sortedByLow ex_overlap).
  { unfold sortedByLow, ex_overlap, Rng0. repeat constructor; simpl; lia. }
  destruct (getFunc_first_owner 17 ex_overlap Hs) as [Hfirst _].
  destruct (getFunc_first_owner 40 ex_overlap Hs) as [_ Hnone].
  split.
  - apply (Hfirst [] (mkFuncRange (10, 20) (Some 1%positive))
             [mkFuncRange (15, 30) (Some 2%positive)]).
    + reflexivity.
    + constructor.
    + unfold owns, Rng0, Rng1; simpl; lia.
  - apply Hnone. unfold ex_overlap, owns, Rng0, Rng1.
    repeat constructor; simpl; lia.
Defined.

(** ** The PC ranges *)

Lemma collectRanges_step (fs : gmap string (option loc)) (e : dwarf.Entry)
    (rest : list dwarf.ReadItem) (r : list FuncRange) :
  collectRanges fs (dwarf.ReadEntry e :: rest) r =
  collectRanges fs rest
    (r ++ match spec_rangeOf fs e with Some x => [x] | None => [] end).
Proof.
  cbn [collectRanges]. unfold spec_rangeOf, lookupFunc.
  destruct (dwarf.ETag e =? dwarf.TagSubprogram); cbn [negb];
    [|rewrite app_nil_r; reflexivity].
  destruct (dwarf.Val e dwarf.AttrName) as [[name| | | | |]|];
    destruct (dwarf.Val e dwarf.AttrLowpc) as [[|low| | | |]|];
    destruct (dwarf.Val e dwarf.AttrHighpc) as [[|high| | | |]|];
    cbn; try (rewrite app_nil_r; reflexivity).
  destruct (fs !! withoutTypeParams name) as [[l|]|]; cbn;
    try (rewrite app_nil_r); reflexivity.
Qed.

Lemma collectRanges_app (fs : gmap string (option loc))
    (pre post : list dwarf.ReadItem) (r : list FuncRange) :
  collectRanges fs (pre ++ post) r =
  match collectRanges fs pre r with
  | Ok r' => collectRanges fs post r'
  | Panic err => Panic err
  end.
Proof.
  revert r. induction pre as [|[e|err] pre IH]; intros r.
  - reflexivity.
  - rewrite <- app_comm_cons, !collectRanges_step. apply IH.
  - reflexivity.
Qed.

(** What the loop collects: the ranges of the records, in their order. *)
Lemma collectRanges_spec (fs : gmap string (option loc))
    (items : list dwarf.ReadItem) (r r' : list FuncRange) :
  collectRanges fs items r = Ok r' -> r' = r ++ omap (itemRange fs) items.
Proof.
  revert r. induction items as [|[e|err] items IH]; intros r Hr.
  - cbn in Hr. injection Hr as <-. cbn. rewrite app_nil_r. reflexivity.
  - rewrite collectRanges_step in Hr. apply IH in Hr as ->.
    rewrite <- app_assoc. f_equal. cbn [omap list_omap itemRange].
    destruct (spec_rangeOf fs e); reflexivity.
  - discriminate Hr.
Qed.

(** The loop ends without a panic exactly when no read fails. *)
Lemma collectRanges_total (fs : gmap string (option loc))
    (es : list dwarf.Entry) (r : list FuncRange) :
  exists r', collectRanges fs (dwarf.ReadEntry <$> es) r = Ok r'.
Proof.
  revert r. induction es as [|e es IH]; intros r.
  - exists r. reflexivity.
  - rewrite fmap_cons, collectRanges_step. apply IH.
Qed.

Lemma StronglySorted_weaken {A : Type} (R R' : A -> A -> Prop) (l : list A) :
  (forall a b, R a b -> R' a b) -> StronglySorted R l -> StronglySorted R' l.
Proof.
  intros HR. induction 1 as [|a l _ IH Ha]; constructor; [exact IH|].
  eapply Forall_impl; [exact Ha|]. intros b. apply HR.
Qed.

Lemma omap_sublist_of {A B : Type} (f : A -> option B) (l1 l2 : list A) :
  sublist l1 l2 -> sublist (omap f l1) (omap f l2).
Proof.
  induction 1 as [|x l1 l2 _ IH|x l1 l2 _ IH]; cbn [omap list_omap].
  - constructor.
  - destruct (f x); [apply sublist_skip|]; exact IH.
  - destruct (f x); [apply sublist_cons|]; exact IH.
Qed.

Section GetPCRanges.
Context {sorter : SliceSorter}.

Lemma getPCRanges_total (es : list dwarf.Entry)
    (lr : dwarf.Entry -> Result (option (list dwarf.LineItem)))
    (fs : gmap string (option loc)) :
  exists rs, getPCRanges (dwarf.mkData (dwarf.ReadEntry <$> es) lr) fs = Ok rs.
Proof.
  unfold getPCRanges. cbn [dwarf.entries].
  destruct (collectRanges_total fs es []) as [r ->]. eauto.
Qed.

(** The result holds the ranges of the records, each once, rearranged. *)
Lemma getPCRanges_perm (dw : dwarf.Data) (fs : gmap string (option loc))
    (rs : list FuncRange) :
  getPCRanges dw fs = Ok rs ->
  Permutation rs (omap (itemRange fs) (dwarf.entries dw)).
Proof.
  unfold getPCRanges.
  destruct (collectRanges fs (dwarf.entries dw) []) as [r|err] eqn:Hr;
    [|discriminate].
  intros [= <-]. apply collectRanges_spec in Hr as ->. cbn [app].
  apply sort_Slice_perm.
Qed.

Lemma lessLow_asym (x y : FuncRange) : lessLow x y = true -> lessLow y x = false.
Proof. unfold lessLow. lia. Qed.

Lemma lessLow_negtrans (x y z : FuncRange) :
  lessLow x y = false -> lessLow y z = false -> lessLow x z = false.
Proof. unfold lessLow. lia. Qed.

Lemma spec_rangeOf_Some (fs : gmap string (option loc)) (e : dwarf.Entry)
    (r : FuncRange) :
  spec_rangeOf fs e = Some r <->
  dwarf.ETag e = dwarf.TagSubprogram /\
  exists name l,
    dwarf.Val e dwarf.AttrName = Some (dwarf.ValString name) /\
    dwarf.Val e dwarf.AttrLowpc = Some (dwarf.ValUint64 (Rng0 r)) /\
    dwarf.Val e dwarf.AttrHighpc = Some (dwarf.ValUint64 (Rng1 r)) /\
    fs !! withoutTypeParams name = Some (Some l) /\
    Fn r = Some l.
Proof.
  unfold spec_rangeOf. split.
  - destruct (Z.eqb_spec (dwarf.ETag e) dwarf.TagSubprogram) as [Ht|]; [|discriminate].
    destruct (dwarf.Val e dwarf.AttrName) as [[name| | | | |]|]; try discriminate.
    destruct (dwarf.Val e dwarf.AttrLowpc) as [[|low| | | |]|]; try discriminate.
    destruct (dwarf.Val e dwarf.AttrHighpc) as [[|high| | | |]|]; try discriminate.
    destruct (fs !! withoutTypeParams name) as [[l|]|] eqn:Hl; try discriminate.
    intros [= <-]. split; [exact Ht|]. exists name, l. auto.
  - intros (-> & name & l & -> & -> & -> & -> & Hl). rewrite Z.eqb_refl.
    destruct r as [[low high] fn]. cbn in *. subst fn. reflexivity.
Qed.

Lemma spec_rangeOf_None (fs : gmap string (option loc)) (e : dwarf.Entry) :
  dwarf.Val e dwarf.AttrName = None \/
  dwarf.Val e dwarf.AttrLowpc = None \/
  dwarf.Val e dwarf.AttrHighpc = None \/
  (exists name, dwarf.Val e dwarf.AttrName = Some (dwarf.ValString name) /\
                fs !! withoutTypeParams name = None) ->
  spec_rangeOf fs e = None.
Proof.
  intros Hskip. destruct (spec_rangeOf fs e) as [r|] eqn:Hr; [|reflexivity].
  apply spec_rangeOf_Some in Hr as (_ & name & l & Hn & Hlo & Hhi & Hl & _).
  destruct Hskip as [H|[H|[H|(name' & H & Hl')]]]; congruence.
Qed.

(** C6. A subprogram record with no name, no low PC or no high PC, and one
    whose stripped name the index does not have, is passed over: the loop
    goes on with the slice as it was, and [getPCRanges] gives what it gives
    without the record, panic or not. *)
Theorem getPCRanges_skips_record (fs : gmap string (option loc))
    (pre post : list dwarf.ReadItem) (e : dwarf.Entry)
    (lr : dwarf.Entry -> Result (option (list dwarf.LineItem))) :
  dwarf.ETag e = dwarf.TagSubprogram ->
  dwarf.Val e dwarf.AttrName = None \/
  dwarf.Val e dwarf.AttrLowpc = None \/
  dwarf.Val e dwarf.AttrHighpc = None \/
  (exists name, dwarf.Val e dwarf.AttrName = Some (dwarf.ValString name) /\
                fs !! withoutTypeParams name = None) ->
  (forall r, collectRanges fs (dwarf.ReadEntry e :: post) r = collectRanges fs post r) /\
  getPCRanges (dwarf.mkData (pre ++ dwarf.ReadEntry e :: post) lr) fs =
  getPCRanges (dwarf.mkData (pre ++ post) lr) fs.
Proof.
  intros _ Hskip. apply spec_rangeOf_None in Hskip.
  assert (Hstep : forall r,
             collectRanges fs (dwarf.ReadEntry e :: post) r = collectRanges fs post r).
  { intros r. rewrite collectRanges_step, Hskip, app_nil_r. reflexivity. }
  split; [exact Hstep|].
  unfold getPCRanges. cbn [dwarf.entries]. rewrite !collectRanges_app.
  destruct (collectRanges fs pre []) as [r|err]; [|reflexivity].
  rewrite Hstep. reflexivity.
Qed.

(** C5. The sequence [getPCRanges] returns is sorted ascending by low
    address, whatever the records and the index. *)
Theorem getPCRanges_sorted (dw : dwarf.Data) (fs : gmap string (option loc))
    (rs : list FuncRange) :
  getPCRanges dw fs = Ok rs -> sortedByLow rs.
Proof.
  unfold getPCRanges.
  destruct (collectRanges fs (dwarf.entries dw) []) as [r|err]; [|discriminate].
  intros [= <-]. unfold sortedByLow.
  eapply StronglySorted_weaken;
    [|apply (sort_Slice_sorted _ lessLow r lessLow_asym lessLow_negtrans)].
  intros a b Hab. cbv beta in Hab. unfold lessLow in Hab. lia.
Qed.

Lemma getPCRanges_elem (dw : dwarf.Data) (fs : gmap string (option loc))
    (rs : list FuncRange) (r : FuncRange) :
  getPCRanges dw fs = Ok rs ->
  r ∈ rs <-> exists e, dwarf.ReadEntry e ∈ dwarf.entries dw /\ spec_rangeOf fs e = Some r.
Proof.
  intros Hrs. apply getPCRanges_perm in Hrs. rewrite Hrs, list_elem_of_omap.
  split.
  - intros ([e|err] & Hin & Hr); [|discriminate]. eauto.
  - intros (e & Hin & Hr). exists (dwarf.ReadEntry e). auto.
Qed.

Lemma getFunc_filter_nonempty (pc : Z) (rs : list FuncRange) :
  getFunc pc rs = getFunc pc (filter (fun r => Rng0 r < Rng1 r) rs).
Proof.
  induction rs as [|r rs IH]; [reflexivity|].
  rewrite filter_cons. destruct (decide (Rng0 r < Rng1 r)) as [Hr|Hr].
  - cbn [getFunc]. rewrite IH. reflexivity.
  - cbn [getFunc]. rewrite <- IH.
    destruct (Z.leb_spec (Rng0 r) pc); destruct (Z.ltb_spec pc (Rng1 r));
      cbn [andb]; try reflexivity. lia.
Qed.

(** C4, as the code has it. Every range [getPCRanges] returns carries the
    low and the high PC of a subprogram record, as they are; a record whose
    low PC is not below its high PC is not skipped, its range is in the
    result like any other; such a range contains no address, and [getFunc]
    answers as if it were not there. *)
Theorem getPCRanges_keeps_empty_ranges (dw : dwarf.Data)
    (fs : gmap string (option loc)) (rs : list FuncRange) :
  getPCRanges dw fs = Ok rs ->
  (forall r, r ∈ rs ->
     exists e name,
       dwarf.ReadEntry e ∈ dwarf.entries dw /\
       dwarf.ETag e = dwarf.TagSubprogram /\
       dwarf.Val e dwarf.AttrName = Some (dwarf.ValString name) /\
       dwarf.Val e dwarf.AttrLowpc = Some (dwarf.ValUint64 (Rng0 r)) /\
       dwarf.Val e dwarf.AttrHighpc = Some (dwarf.ValUint64 (Rng1 r)) /\
       fs !! withoutTypeParams name = Some (Fn r)) /\
  (forall e name low high l,
     dwarf.ReadEntry e ∈ dwarf.entries dw ->
     dwarf.ETag e = dwarf.TagSubprogram ->
     dwarf.Val e dwarf.AttrName = Some (dwarf.ValString name) ->
     dwarf.Val e dwarf.AttrLowpc = Some (dwarf.ValUint64 low) ->
     dwarf.Val e dwarf.AttrHighpc = Some (dwarf.ValUint64 high) ->
     fs !! withoutTypeParams name = Some (Some l) ->
     high <= low ->
     mkFuncRange (low, high) (Some l) ∈ rs) /\
  (forall r pc, r ∈ rs -> Rng1 r <= Rng0 r -> ~ owns r pc) /\
  (forall pc, getFunc pc rs = getFunc pc (filter (fun r => Rng0 r < Rng1 r) rs)).
Proof.
  intros Hrs. split; [|split; [|split]].
  - intros r Hr. apply (getPCRanges_elem _ _ _ _ Hrs) in Hr as (e & Hin & He).
    apply spec_rangeOf_Some in He as (Ht & name & l & Hn & Hlo & Hhi & Hl & Hfn).
    exists e, name. rewrite Hfn. auto 10.
  - intros e name low high l Hin Ht Hn Hlo Hhi Hl _.
    apply (getPCRanges_elem _ _ _ _ Hrs). exists e. split; [exact Hin|].
    apply spec_rangeOf_Some. split; [exact Ht|]. exists name, l. auto.
  - intros r pc _ Hr. unfold owns. lia.
  - intros pc. apply getFunc_filter_nonempty.
Qed.

(** C3. The records of the compiled instances of one generic function, whose
    names without the bracketed part from the first [[] to the last []] are
    all the one name [c] that the index maps to a function [l], each give a
    range of their own in the result of [getPCRanges], and every one of these
    ranges points to the same [l]. *)
Theorem getPCRanges_instances_share_func (dw : dwarf.Data)
    (fs : gmap string (option loc)) (rs : list FuncRange)
    (c : string) (l : loc) (insts : list dwarf.Entry) :
  getPCRanges dw fs = Ok rs ->
  fs !! c = Some (Some l) ->
  sublist (dwarf.ReadEntry <$> insts) (dwarf.entries dw) ->
  Forall (instanceOf c) insts ->
  exists ranges,
    ranges ⊆+ rs /\
    Forall2 (fun e r =>
               Fn r = Some l /\
               dwarf.Val e dwarf.AttrLowpc = Some (dwarf.ValUint64 (Rng0 r)) /\
               dwarf.Val e dwarf.AttrHighpc = Some (dwarf.ValUint64 (Rng1 r)))
            insts ranges.
Proof.
  intros Hrs Hc Hsub Hinsts.
  exists (omap (itemRange fs) (dwarf.ReadEntry <$> insts)). split.
  - apply getPCRanges_perm in Hrs. rewrite Hrs.
    apply sublist_submseteq, omap_sublist_of, Hsub.
  - clear Hsub Hrs. induction Hinsts as [|e insts He _ IH]; [constructor|].
    destruct He as (Ht & (name & Hn & Hstrip) & (low & Hlo) & (high & Hhi)).
    rewrite fmap_cons. cbn [omap list_omap itemRange].
    assert (He : spec_rangeOf fs e = Some (mkFuncRange (low, high) (Some l))).
    { apply spec_rangeOf_Some. split; [exact Ht|]. exists name, l.
      rewrite (withoutTypeParams_stripped name c Hstrip). auto. }
    rewrite He. constructor; [|exact IH]. auto.
Qed.

End GetPCRanges.

(** A record with no low PC after the example's entries changes nothing. *)
Lemma getPCRanges_skips_record_witness :
  getPCRanges (sorter := insertionSorter)
    (dwarf.mkData (ex_entries ++ dwarf.ReadEntry ex_nolow :: []) (ex_lines ex_prog))
    ex_index =
  Ok [mkFuncRange (100, 200) (Some 1%positive);
      mkFuncRange (200, 300) (Some 1%positive)].
Proof.
  assert (Ht : dwarf.ETag ex_nolow = dwarf.TagSubprogram) by reflexivity.
  assert (Hlow : dwarf.Val ex_nolow dwarf.AttrLowpc = None) by reflexivity.
  rewrite (proj2 (getPCRanges_skips_record (sorter := insertionSorter)
                    ex_index ex_entries [] ex_nolow (ex_lines ex_prog)
                    Ht (or_intror (or_introl Hlow)))).
  reflexivity.
Defined.

(** The ranges of the example come out in order, though the records are
    not. *)
Lemma getPCRanges_sorted_witness :
  sortedByLow [mkFuncRange (100, 200) (Some 1%positive);
               mkFuncRange (200, 300) (Some 1%positive)].
Proof.
  apply (getPCRanges_sorted (sorter := insertionSorter) ex_dw ex_index).
  reflexivity.
Defined.

(** C4, as the specification states it, does not hold: a record with low PC
    500 and high PC 500 whose name is in the index gives the range
    [[500, 500)] in the result. *)
Lemma getPCRanges_empty_range_inserted :
  getPCRanges (sorter := insertionSorter) ex_dw_empty_range ex_index =
  Ok [mkFuncRange (100, 200) (Some 1%positive);
      mkFuncRange (200, 300) (Some 1%positive);
      mkFuncRange (500, 500) (Some 1%positive)] /\
  ~ (Rng0 (mkFuncRange (500, 500) (Some 1%positive)) <
     Rng1 (mkFuncRange (500, 500) (Some 1%positive))).
Proof. split; [reflexivity|]. cbn. lia. Qed.

(** The theorem on the example with the empty range. *)
Lemma getPCRanges_keeps_empty_ranges_witness :
  mkFuncRange (500, 500) (Some 1%positive) ∈
    [mkFuncRange (100, 200) (Some 1%positive);
     mkFuncRange (200, 300) (Some 1%positive);
     mkFuncRange (500, 500) (Some 1%positive)] /\
  getFunc 500
    [mkFuncRange (100, 200) (Some 1%positive);
     mkFuncRange (200, 300) (Some 1%positive);
     mkFuncRange (500, 500) (Some 1%positive)] =
  getFunc 500
    (filter (fun r => Rng0 r < Rng1 r)
       [mkFuncRange (100, 200) (Some 1%positive);
        mkFuncRange (200, 300) (Some 1%positive);
        mkFuncRange (500, 500) (Some 1%positive)]).
Proof.
  assert (Hrun : getPCRanges (sorter := insertionSorter) ex_dw_empty_range ex_index =
                 Ok [mkFuncRange (100, 200) (Some 1%positive);
                     mkFuncRange (200, 300) (Some 1%positive);
                     mkFuncRange (500, 500) (Some 1%positive)])
    by (vm_compute; reflexivity).
  destruct (getPCRanges_keeps_empty_ranges (sorter := insertionSorter)
              ex_dw_empty_range ex_index _ Hrun)
    as (_ & Hins & _ & Hget).
  split; [|apply Hget].
  apply (Hins (ex_sub 50 "main.Base[bool]" 500 500) "main.Base[bool]" 500 500
           1%positive).
  - cbn. do 4 apply list_elem_of_further. apply list_elem_of_here.
  - reflexivity.
  - reflexivity.
  - reflexivity.
  - reflexivity.
  - reflexivity.
  - lia.
Defined.

(** The two instances of [Base] in the example, [main.Base[int]] and
    [main.Base[string]], get a range each from [getPCRanges], and both
    ranges share the [Func] at location 1. *)
Lemma getPCRanges_instances_share_func_witness :
  exists rs ranges,
    getPCRanges (sorter := insertionSorter) ex_dw ex_index = Ok rs /\
    ranges ⊆+ rs /\
    Forall2 (fun e r =>
               Fn r = Some 1%positive /\
               dwarf.Val e dwarf.AttrLowpc = Some (dwarf.ValUint64 (Rng0 r)) /\
               dwarf.Val e dwarf.AttrHighpc = Some (dwarf.ValUint64 (Rng1 r)))
            [ex_sub 20 "main.Base[int]" 200 300; ex_sub 30 "main.Base[string]" 100 200]
            ranges.
Proof.
  assert (Hrun : getPCRanges (sorter := insertionSorter) ex_dw ex_index = Ok ex_ranges)
    by (vm_compute; reflexivity).
  assert (Hsub : sublist
            (dwarf.ReadEntry <$>
               [ex_sub 20 "main.Base[int]" 200 300; ex_sub 30 "main.Base[string]" 100 200])
            (dwarf.entries ex_dw)).
  { cbn. apply sublist_cons. apply sublist_skip. apply sublist_skip.
    apply sublist_cons. apply sublist_nil. }
  assert (Hp : lacks "[" "main.Base") by (apply Index_lacks; reflexivity).
  assert (Hq : lacks "]" "") by (apply Index_lacks; reflexivity).
  assert (Hinsts : Forall (instanceOf "main.Base")
            [ex_sub 20 "main.Base[int]" 200 300; ex_sub 30 "main.Base[string]" 100 200]).
  { constructor; [|constructor; [|constructor]].
    - split; [reflexivity|]. split; [|split; eexists; reflexivity].
      exists "main.Base[int]". split; [reflexivity|].
      exists "main.Base", "int", "". auto.
    - split; [reflexivity|]. split; [|split; eexists; reflexivity].
      exists "main.Base[string]". split; [reflexivity|].
      exists "main.Base", "string", "". auto. }
  destruct (getPCRanges_instances_share_func (sorter := insertionSorter)
              ex_dw ex_index ex_ranges "main.Base" 1%positive _
              Hrun eq_refl Hsub Hinsts) as (ranges & Hin & Hall).
  exists ex_ranges, ranges. auto.
Defined.

(** ** The check of the line tables *)

Lemma andThen_ret_l {A B : Type} (a : A) (k : Output B) : ret a >> k = k.
Proof. destruct k as [out r]. reflexivity. Qed.

Lemma andThen_panic_l {A B : Type} (err : string) (k : Output B) :
  @panic A err >> k = panic err.
Proof. reflexivity. Qed.

Lemma andThen_assoc {A B C : Type} (a : Output A) (b : Output B) (c : Output C) :
  a >> b >> c = a >> (b >> c).
Proof.
  destruct a as [oa [x|ea]]; [|reflexivity].
  destruct b as [ob [y|eb]]; [|reflexivity].
  destruct c as [oc rc]. unfold andThen, bind. rewrite app_assoc. reflexivity.
Qed.

Lemma andThen_ok {A B : Type} (a : Output A) (b : Output B) (x : A) :
  snd a = Ok x -> a >> b = (fst a ++ fst b, snd b).
Proof. destruct a as [oa ra], b as [ob rb]; cbn. intros ->. reflexivity. Qed.

Lemma lineLoop_app (h : gmap loc Func) (rs : list FuncRange)
    (pre post : list dwarf.LineItem) :
  lineLoop h rs (pre ++ post) = lineLoop h rs pre >> lineLoop h rs post.
Proof.
  induction pre as [|[lne|err] pre IH]; cbn [app lineLoop].
  - rewrite andThen_ret_l. reflexivity.
  - rewrite IH, andThen_assoc. reflexivity.
  - reflexivity.
Qed.

Lemma unitLoop_app (lr : dwarf.Entry -> Result (option (list dwarf.LineItem)))
    (h : gmap loc Func) (rs : list FuncRange) (pre post : list dwarf.ReadItem) :
  unitLoop lr h rs (pre ++ post) = unitLoop lr h rs pre >> unitLoop lr h rs post.
Proof.
  induction pre as [|[e|err] pre IH]; cbn [app unitLoop].
  - rewrite andThen_ret_l. reflexivity.
  - destruct (negb (dwarf.ETag e =? dwarf.TagCompileUnit)); [exact IH|].
    destruct (lr e) as [[prog|]|err]; [|reflexivity|reflexivity].
    rewrite IH, andThen_assoc. reflexivity.
  - reflexivity.
Qed.

(** The outer loop reads the line tables only through what the inner loop
    makes of them. *)
Lemma unitLoop_ext (lr lr' : dwarf.Entry -> Result (option (list dwarf.LineItem)))
    (h : gmap loc Func) (rs : list FuncRange) (items : list dwarf.ReadItem) :
  (forall e,
      match lr e, lr' e with
      | Ok (Some prog), Ok (Some prog') => lineLoop h rs prog = lineLoop h rs prog'
      | Ok None, Ok None => True
      | Panic err, Panic err' => err = err'
      | _, _ => False
      end) ->
  unitLoop lr h rs items = unitLoop lr' h rs items.
Proof.
  intros Hlr. induction items as [|[e|err] items IH]; cbn [unitLoop].
  - reflexivity.
  - destruct (negb (dwarf.ETag e =? dwarf.TagCompileUnit)); [exact IH|].
    specialize (Hlr e).
    destruct (lr e) as [[prog|]|err], (lr' e) as [[prog'|]|err'];
      try contradiction.
    + rewrite Hlr, IH. reflexivity.
    + reflexivity.
    + rewrite Hlr. reflexivity.
  - reflexivity.
Qed.

Lemma checkEntry_unowned (h : gmap loc Func) (rs : list FuncRange)
    (lne : dwarf.LineEntry) :
  Forall (fun r => ~ owns r (dwarf.Address lne)) rs ->
  checkEntry h rs lne = ret tt.
Proof.
  intros Hrs. unfold checkEntry. cbn [onlyStmt andb].
  rewrite (getFunc_none _ _ Hrs). reflexivity.
Qed.

(** C7. A line entry whose address no range contains is passed over: its
    check prints nothing and does not panic, and [checkLines] prints and
    ends as it does on the same data without the entry. *)
Theorem checkLines_skips_unowned (h : gmap loc Func)
    (fs : gmap string (option loc)) (rs : list FuncRange)
    (dw dw' : dwarf.Data) (cu : dwarf.Entry)
    (pre post : list dwarf.LineItem) (lne : dwarf.LineEntry) :
  Forall (fun r => ~ owns r (dwarf.Address lne)) rs ->
  dwarf.LineReader dw cu = Ok (Some (pre ++ dwarf.LineOk lne :: post)) ->
  dwarf.LineReader dw' cu = Ok (Some (pre ++ post)) ->
  (forall e, e <> cu -> dwarf.LineReader dw' e = dwarf.LineReader dw e) ->
  dwarf.entries dw' = dwarf.entries dw ->
  checkEntry h rs lne = ret tt /\
  checkLines dw h fs rs = checkLines dw' h fs rs.
Proof.
  intros Hrs Hcu Hcu' Hother Hentries.
  pose proof (checkEntry_unowned h rs lne Hrs) as Hskip.
  split; [exact Hskip|].
  unfold checkLines. rewrite Hentries. apply unitLoop_ext. intros e.
  destruct (decide (e = cu)) as [->|Hne].
  - rewrite Hcu, Hcu', !lineLoop_app. cbn [lineLoop].
    rewrite Hskip, andThen_ret_l. reflexivity.
  - rewrite (Hother e Hne).
    destruct (dwarf.LineReader dw e) as [[prog|]|err]; reflexivity.
Qed.

(** The check of a line entry whose address resolves to a function. *)
Lemma checkEntry_owned (h : gmap loc Func) (rs : list FuncRange)
    (lne : dwarf.LineEntry) (l : loc) (fn : Func) :
  getFunc (dwarf.Address lne) rs = Some l ->
  h !! l = Some fn ->
  checkEntry h rs lne =
  if (dwarf.Line lne <? startLine fn) || (dwarf.Line lne >? endLine fn) then
    match dwarf.File lne with
    | None => panic nilDereference
    | Some file =>
        print (EvViolation
                 (mkViolation (filepath.Base (dwarf.FileName file))
                              (dwarf.Line lne) (dwarf.Address lne) (Name fn)))
    end
  else ret tt.
Proof.
  intros Hget Hfn. unfold checkEntry. cbn [onlyStmt andb].
  rewrite Hget, Hfn. reflexivity.
Qed.

Lemma outside_span (line lo hi : Z) :
  (line <? lo) || (line >? hi) = true <-> line < lo \/ line > hi.
Proof.
  rewrite orb_true_iff, Z.ltb_lt, Z.gtb_ltb, Z.ltb_lt. lia.
Qed.

(** How [checkLines] runs up to and after the line entry [lne] that stands
    after [lpre] in the line table of the compile unit [cu], itself after
    [pre] among the entries, when nothing before the entry panics. *)
Lemma checkLines_at_entry (dw : dwarf.Data) (h : gmap loc Func)
    (fs : gmap string (option loc)) (rs : list FuncRange)
    (pre post : list dwarf.ReadItem) (cu : dwarf.Entry)
    (lpre lpost : list dwarf.LineItem) (lne : dwarf.LineEntry) :
  dwarf.entries dw = pre ++ dwarf.ReadEntry cu :: post ->
  dwarf.ETag cu = dwarf.TagCompileUnit ->
  dwarf.LineReader dw cu = Ok (Some (lpre ++ dwarf.LineOk lne :: lpost)) ->
  snd (unitLoop (dwarf.LineReader dw) h rs pre) = Ok tt ->
  snd (lineLoop h rs lpre) = Ok tt ->
  checkLines dw h fs rs =
  (fst (unitLoop (dwarf.LineReader dw) h rs pre) ++ fst (lineLoop h rs lpre), Ok tt)
  >> (checkEntry h rs lne
      >> (lineLoop h rs lpost >> unitLoop (dwarf.LineReader dw) h rs post)).
Proof.
  intros Hentries Htag Hcu Hpre Hlpre. unfold checkLines.
  rewrite Hentries, unitLoop_app. cbn [unitLoop].
  rewrite Htag, Z.eqb_refl. cbn [negb]. rewrite Hcu, lineLoop_app.
  cbn [lineLoop]. rewrite !andThen_assoc.
  rewrite (andThen_ok _ _ tt Hpre), (andThen_ok _ _ tt Hlpre).
  destruct (checkEntry h rs lne >>
            (lineLoop h rs lpost >> unitLoop (dwarf.LineReader dw) h rs post))
    as [o r].
  cbn. rewrite app_assoc. reflexivity.
Qed.

(** C1. Take a line entry that [checkLines] reaches (it stands in the line
    table of a compile unit, and nothing before it panics), that has a file,
    and whose address [getFunc] resolves to a function. [checkLines] prints
    for it, at its place in the output, the violation (base name of the file,
    line, address, name of the function) exactly when the line is below the
    start line or above the end line, and prints nothing for it exactly when
    the line is within the two, bounds included; the run goes on after it
    either way. With [startLine <= endLine], a line equal to either bound
    prints nothing. *)
Theorem checkLines_violation_iff (dw : dwarf.Data) (h : gmap loc Func)
    (fs : gmap string (option loc)) (rs : list FuncRange)
    (pre post : list dwarf.ReadItem) (cu : dwarf.Entry)
    (lpre lpost : list dwarf.LineItem) (lne : dwarf.LineEntry)
    (file : dwarf.LineFile) (l : loc) (fn : Func) :
  dwarf.entries dw = pre ++ dwarf.ReadEntry cu :: post ->
  dwarf.ETag cu = dwarf.TagCompileUnit ->
  dwarf.LineReader dw cu = Ok (Some (lpre ++ dwarf.LineOk lne :: lpost)) ->
  snd (unitLoop (dwarf.LineReader dw) h rs pre) = Ok tt ->
  snd (lineLoop h rs lpre) = Ok tt ->
  dwarf.File lne = Some file ->
  getFunc (dwarf.Address lne) rs = Some l ->
  h !! l = Some fn ->
  let before :=
    fst (unitLoop (dwarf.LineReader dw) h rs pre) ++ fst (lineLoop h rs lpre) in
  let rest :=
    lineLoop h rs lpost >> unitLoop (dwarf.LineReader dw) h rs post in
  let v := EvViolation
             (mkViolation (filepath.Base (dwarf.FileName file))
                          (dwarf.Line lne) (dwarf.Address lne) (Name fn)) in
  exists emitted,
    checkLines dw h fs rs = (before ++ emitted ++ fst rest, snd rest) /\
    (emitted = [v] <->
     dwarf.Line lne < startLine fn \/ dwarf.Line lne > endLine fn) /\
    (emitted = [] <-> startLine fn <= dwarf.Line lne <= endLine fn) /\
    (startLine fn <= endLine fn ->
     dwarf.Line lne = startLine fn \/ dwarf.Line lne = endLine fn ->
     emitted = []).
Proof.
  intros Hentries Htag Hcu Hpre Hlpre Hfile Hget Hfn before rest v.
  pose proof (checkLines_at_entry dw h fs rs pre post cu lpre lpost lne
                Hentries Htag Hcu Hpre Hlpre) as Hrun.
  fold before rest in Hrun.
  rewrite (checkEntry_owned h rs lne l fn Hget Hfn), Hfile in Hrun.
  fold v in Hrun.
  pose proof (outside_span (dwarf.Line lne) (startLine fn) (endLine fn)) as Hspan.
  destruct ((dwarf.Line lne <? startLine fn) || (dwarf.Line lne >? endLine fn))
    eqn:Hout.
  - assert (Ho : dwarf.Line lne < startLine fn \/ dwarf.Line lne > endLine fn)
      by (apply Hspan; reflexivity).
    exists [v]. split; [|split; [|split]].
    + rewrite Hrun. destruct rest as [o r]. reflexivity.
    + split; auto.
    + split; [discriminate|]. lia.
    + lia.
  - assert (Hi : ~ (dwarf.Line lne < startLine fn \/ dwarf.Line lne > endLine fn))
      by (rewrite <- Hspan; discriminate).
    rewrite andThen_ret_l in Hrun.
    exists []. split; [|split; [|split]].
    + rewrite Hrun. destruct rest as [o r]. reflexivity.
    + split; [discriminate|]. intros Ho. contradiction.
    + split; [|reflexivity]. lia.
    + reflexivity.
Qed.

(** In the example the entry at address 250, of line 99 in a function of
    lines 3 to 5, comes second in the line table of the compile unit and is
    the one violation that [checkLines] prints. *)
Lemma checkLines_violation_iff_witness :
  checkLines ex_dw ex_heap ex_index ex_ranges =
  ([EvViolation (mkViolation "file.go" 99 250 "main.Base")], Ok tt).
Proof.
  assert (Hfn : ex_heap !! 1%positive = Some (mkFunc "main.Base" 3 5))
    by reflexivity.
  assert (Hout : 99 < 3 \/ 99 > 5) by lia.
  destruct (checkLines_violation_iff ex_dw ex_heap ex_index ex_ranges
              [] (skipn 1 ex_entries) ex_cu
              [ex_line 150 4] [ex_line 950 99]
              (dwarf.mkLineEntry 250 ex_file 99 true)
              (dwarf.mkLineFile "/tmp/x/file.go")
              1%positive (mkFunc "main.Base" 3 5)
              eq_refl eq_refl eq_refl eq_refl eq_refl eq_refl eq_refl Hfn)
    as (emitted & Hrun & Hv & _).
  rewrite Hrun, (proj2 Hv Hout). reflexivity.
Defined.

(** C1, as the specification states it, does not hold. In a line table of
    two entries at address 250, which resolves to [main.Base] of lines 3 to
    5, both of line 99, above the end line, the first entry has no file:
    [checkLines] panics at it and prints a violation for neither entry. And
    for a function whose start line 5 is above its end line 3, an entry of
    line 5, equal to the start line, is printed as a violation. *)
Lemma checkLines_nil_file_no_violation :
  (getFunc 250 ex_ranges = Some 1%positive /\
   ex_heap !! 1%positive = Some (mkFunc "main.Base" 3 5) /\
   checkLines
     (dwarf.mkData ex_entries
        (ex_lines [dwarf.LineOk (dwarf.mkLineEntry 250 None 99 true);
                   ex_line 250 99]))
     ex_heap ex_index ex_ranges =
   ([], Panic nilDereference)) /\
  (getFunc 250 ex_ranges = Some 1%positive /\
   checkLines (dwarf.mkData ex_entries (ex_lines [ex_line 250 5]))
     {[ 1%positive := mkFunc "main.Base" 5 3 ]} ex_index ex_ranges =
   ([EvViolation (mkViolation "file.go" 5 250 "main.Base")], Ok tt)).
Proof. repeat split; vm_compute; reflexivity. Qed.

(** The entry at address 950, outside both ranges, can be left out. *)
Lemma checkLines_skips_unowned_witness :
  checkLines ex_dw ex_heap ex_index ex_ranges =
  checkLines (dwarf.mkData ex_entries (ex_lines [ex_line 150 4; ex_line 250 99]))
    ex_heap ex_index ex_ranges.
Proof.
  refine (proj2 (checkLines_skips_unowned ex_heap ex_index ex_ranges ex_dw
            (dwarf.mkData ex_entries (ex_lines [ex_line 150 4; ex_line 250 99]))
            ex_cu [ex_line 150 4; ex_line 250 99] []
            (dwarf.mkLineEntry 950 ex_file 99 true)
            _ _ _ _ _)).
  - unfold ex_ranges, owns, Rng0, Rng1. repeat constructor; cbn; lia.
  - reflexivity.
  - reflexivity.
  - intros e He. cbn. unfold ex_lines. destruct (decide (e = ex_cu)); [contradiction|].
    reflexivity.
  - reflexivity.
Defined.

(** ** The function index *)

Lemma Node_ind_forall (P : ast.Node -> Prop)
    (Hdecl : forall d, P (ast.FuncDeclNode d))
    (Hother : forall cs, Forall P cs -> P (ast.OtherNode cs)) :
  forall n, P n.
Proof.
  fix IH 1. intros [d|cs].
  - apply Hdecl.
  - apply Hother. induction cs as [|c cs IHcs]; constructor.
    + apply IH.
    + exact IHcs.
Qed.

Section FunctionIndex.
Context {alloc : Allocator}.

Lemma visitAll_app (fs : token.FileSet) (pre post : list ast.FuncDecl) (st : Store) :
  visitAll fs (pre ++ post) st =
  match visitAll fs pre st with
  | Ok st' => visitAll fs post st'
  | Panic err => Panic err
  end.
Proof.
  revert st. induction pre as [|d pre IH]; intros st; cbn [app visitAll].
  - reflexivity.
  - destruct (visitFuncDecl fs d st); [apply IH|reflexivity].
Qed.

(** The walk visits the declarations it reaches, in order. *)
Lemma Inspect_visitAll (fs : token.FileSet) (n : ast.Node) (st : Store) :
  Inspect fs n st = visitAll fs (funcDecls n) st.
Proof.
  revert st. induction n as [d|cs IH] using Node_ind_forall; intros st.
  - cbn [Inspect funcDecls visitAll]. destruct (visitFuncDecl fs d st); reflexivity.
  - cbn [Inspect funcDecls]. revert st.
    induction IH as [|c cs Hc _ IHcs]; intros st.
    + reflexivity.
    + rewrite visitAll_app, <- Hc. destruct (Inspect fs c st); [apply IHcs|reflexivity].
Qed.

Lemma visitFuncDecl_named (fs : token.FileSet) (d : ast.FuncDecl) (st : Store)
    (key : string) :
  spec_canonicalName d = Some key ->
  visitFuncDecl fs d st =
  Ok (mkStore
        (<[alloc_loc (heap st) :=
             mkFunc key (token.Line (fs (ast.Pos d))) (token.Line (fs (ast.End_ d)))]>
           (heap st))
        (<[key := Some (alloc_loc (heap st))]> (funcs st))).
Proof.
  unfold spec_canonicalName, visitFuncDecl, new_Func.
  destruct (ast.Recv d) as [[|f rest]|]; [discriminate| |]; intros [= <-]; reflexivity.
Qed.

Lemma visitFuncDecl_unnamed (fs : token.FileSet) (d : ast.FuncDecl) (st : Store) :
  spec_canonicalName d = None ->
  visitFuncDecl fs d st = Panic indexOutOfRange.
Proof.
  unfold spec_canonicalName, visitFuncDecl.
  destruct (ast.Recv d) as [[|f rest]|]; [reflexivity|discriminate..].
Qed.

(** A name of the index points to a [Func] of that name, whatever is
    declared afterwards. *)
Lemma visitAll_keeps_name (fs : token.FileSet) (ds : list ast.FuncDecl)
    (st st' : Store) (key : string) :
  (exists l fn,
      funcs st !! key = Some (Some l) /\ heap st !! l = Some fn /\ Name fn = key) ->
  visitAll fs ds st = Ok st' ->
  exists l fn,
    funcs st' !! key = Some (Some l) /\ heap st' !! l = Some fn /\ Name fn = key.
Proof.
  revert st. induction ds as [|d ds IH]; intros st Hst Hvisit; cbn [visitAll] in Hvisit.
  - injection Hvisit as <-. exact Hst.
  - destruct (spec_canonicalName d) as [key'|] eqn:Hname.
    2: { rewrite (visitFuncDecl_unnamed _ _ _ Hname) in Hvisit. discriminate. }
    rewrite (visitFuncDecl_named _ _ _ _ Hname) in Hvisit.
    apply IH in Hvisit; [exact Hvisit|]. cbn [heap funcs].
    destruct Hst as (l & fn & Hkey & Hl & Hfn).
    destruct (decide (key' = key)) as [->|Hne].
    + eexists _, _. rewrite !lookup_insert_eq. eauto.
    + exists l, fn. rewrite lookup_insert_ne by exact Hne.
      rewrite lookup_insert_ne; [auto|].
      intros Heq. pose proof (alloc_fresh (heap st)) as Hfresh.
      rewrite Heq in Hfresh. congruence.
Qed.

(** It points to the same [Func] as long as no later declaration has the
    name. *)
Lemma visitAll_keeps_func (fs : token.FileSet) (ds : list ast.FuncDecl)
    (st st' : Store) (key : string) (l : loc) (fn : Func) :
  funcs st !! key = Some (Some l) -> heap st !! l = Some fn ->
  Forall (fun d => spec_canonicalName d <> Some key) ds ->
  visitAll fs ds st = Ok st' ->
  funcs st' !! key = Some (Some l) /\ heap st' !! l = Some fn.
Proof.
  revert st. induction ds as [|d ds IH]; intros st Hkey Hl Hds Hvisit;
    cbn [visitAll] in Hvisit.
  - injection Hvisit as <-. auto.
  - apply Forall_cons in Hds as [Hd Hds].
    destruct (spec_canonicalName d) as [key'|] eqn:Hname.
    2: { rewrite (visitFuncDecl_unnamed _ _ _ Hname) in Hvisit. discriminate. }
    rewrite (visitFuncDecl_named _ _ _ _ Hname) in Hvisit.
    apply IH in Hvisit; [exact Hvisit| | |exact Hds]; cbn [heap funcs].
    + rewrite lookup_insert_ne by congruence. exact Hkey.
    + rewrite lookup_insert_ne; [exact Hl|].
      intros Heq. pose proof (alloc_fresh (heap st)) as Hfresh.
      rewrite Heq in Hfresh. congruence.
Qed.

(** C8. For every function declaration the walk reaches, with canonical name
    [key] (["main." + identifier], or ["main.(" + receiver type without its
    type parameters + ")." + identifier] for a method with a receiver), the
    visit of the declaration stores under [key] a pointer to a new [Func]
    named [key] whose start and end line are the lines of the declaration's
    [Pos()] and [End()]. When [getLineRanges] returns, the index has a [Func]
    named [key] under [key], and it is this one unless a later declaration
    has the same canonical name. *)
Theorem getLineRanges_records_decl (p : Parsed) (st st_pre : Store)
    (pre post : list ast.FuncDecl) (d : ast.FuncDecl) (key : string) :
  parse_err p = None ->
  funcDecls (file p) = pre ++ d :: post ->
  spec_canonicalName d = Some key ->
  visitAll (fset p) pre st = Ok st_pre ->
  let l := alloc_loc (heap st_pre) in
  let fn := mkFunc key (token.Line (fset p (ast.Pos d)))
                   (token.Line (fset p (ast.End_ d))) in
  heap st_pre !! l = None /\
  visitFuncDecl (fset p) d st_pre =
    Ok (mkStore (<[l := fn]> (heap st_pre)) (<[key := Some l]> (funcs st_pre))) /\
  forall st',
    getLineRanges p st = Ok st' ->
    (exists l' fn',
        funcs st' !! key = Some (Some l') /\ heap st' !! l' = Some fn' /\
        Name fn' = key) /\
    (Forall (fun d' => spec_canonicalName d' <> Some key) post ->
     funcs st' !! key = Some (Some l) /\ heap st' !! l = Some fn).
Proof.
  intros Herr Hdecls Hname Hpre l fn.
  split; [apply alloc_fresh|]. split; [apply visitFuncDecl_named, Hname|].
  intros st' Hrun. unfold getLineRanges in Hrun. rewrite Herr in Hrun.
  cbn [must] in Hrun.
  rewrite Inspect_visitAll, Hdecls, visitAll_app, Hpre in Hrun.
  cbn [visitAll] in Hrun. rewrite (visitFuncDecl_named _ _ _ _ Hname) in Hrun.
  fold l fn in Hrun. split.
  - eapply visitAll_keeps_name; [|exact Hrun]. cbn [heap funcs].
    exists l, fn. rewrite !lookup_insert_eq. auto.
  - intros Hpost. eapply visitAll_keeps_func; [| |exact Hpost|exact Hrun];
      cbn [heap funcs]; apply lookup_insert_eq.
Qed.

(** [getLineRanges] returns when the parser gave no error and no receiver
    list is empty. *)
Lemma getLineRanges_total (p : Parsed) (st : Store) :
  parse_err p = None ->
  Forall (fun d => ast.Recv d <> Some []) (funcDecls (file p)) ->
  exists st', getLineRanges p st = Ok st'.
Proof.
  intros Herr Hds. unfold getLineRanges. rewrite Herr. cbn [must].
  rewrite Inspect_visitAll. revert st.
  induction Hds as [|d ds Hd _ IH]; intros st; cbn [visitAll].
  - eauto.
  - destruct (spec_canonicalName d) as [key|] eqn:Hname.
    + rewrite (visitFuncDecl_named _ _ _ _ Hname). apply IH.
    + exfalso. apply Hd. unfold spec_canonicalName in Hname.
      destruct (ast.Recv d) as [[|f rest]|]; [reflexivity|discriminate..].
Qed.

End FunctionIndex.

(** The method [Get] of the example is recorded under its canonical name,
    with lines 10 to 12, at the second location. *)
Lemma getLineRanges_records_decl_witness :
  exists st',
    getLineRanges (alloc := leastFreeAllocator) ex_parsed (mkStore ∅ ∅) = Ok st' /\
    funcs st' !! "main.(*Box).Get" = Some (Some 2%positive) /\
    heap st' !! 2%positive = Some (mkFunc "main.(*Box).Get" 10 12).
Proof.
  destruct (getLineRanges (alloc := leastFreeAllocator) ex_parsed (mkStore ∅ ∅))
    as [st'|err] eqn:Hrun; [|vm_compute in Hrun; discriminate Hrun].
  exists st'. split; [reflexivity|].
  refine (proj2 (proj2 (proj2 (getLineRanges_records_decl (alloc := leastFreeAllocator)
            ex_parsed (mkStore ∅ ∅)
            (mkStore {[ 1%positive := mkFunc "main.Base" 3 5 ]}
                     {[ "main.Base" := Some 1%positive ]})
            [ast.mkFuncDecl None "Base" 3 5] []
            (ast.mkFuncDecl
               (Some [ast.mkField ["t"]
                        (ast.StarExpr (ast.IndexExpr (ast.Ident "Box") (ast.Ident "T")))])
               "Get" 10 12)
            "main.(*Box).Get" eq_refl eq_refl eq_refl _)) st' Hrun) _).
  - vm_compute. reflexivity.
  - constructor.
Defined.

(** ** Two runs *)

Lemma sameFunc_weaken (h1 h2 h1' h2' : gmap loc Func) (p1 p2 : option loc) :
  h1 ⊆ h1' -> h2 ⊆ h2' -> sameFunc h1 h2 p1 p2 -> sameFunc h1' h2' p1 p2.
Proof.
  intros H1 H2. destruct p1 as [l1|], p2 as [l2|]; cbn; try tauto.
  intros (fn & Hl1 & Hl2). exists fn.
  split; eapply lookup_weaken; eassumption.
Qed.

Lemma visitFuncDecl_sameIndex (A1 A2 : Allocator) (fs : token.FileSet)
    (d : ast.FuncDecl) (st1 st2 : Store) :
  sameIndex st1 st2 ->
  match visitFuncDecl (alloc := A1) fs d st1, visitFuncDecl (alloc := A2) fs d st2 with
  | Ok st1', Ok st2' => sameIndex st1' st2'
  | Panic e1, Panic e2 => e1 = e2
  | _, _ => False
  end.
Proof.
  intros Hst. destruct (spec_canonicalName d) as [key|] eqn:Hname.
  2: { rewrite !(visitFuncDecl_unnamed _ _ _ Hname). reflexivity. }
  rewrite !(visitFuncDecl_named _ _ _ _ Hname).
  intros k. cbn [heap funcs]. destruct (decide (key = k)) as [<-|Hne].
  - rewrite !lookup_insert_eq. cbn. eexists. rewrite !lookup_insert_eq. eauto.
  - rewrite !lookup_insert_ne by exact Hne. specialize (Hst k).
    destruct (funcs st1 !! k) as [p1|], (funcs st2 !! k) as [p2|]; try exact Hst.
    eapply sameFunc_weaken; [| |exact Hst]; apply insert_subseteq, alloc_fresh.
Qed.

Lemma visitAll_sameIndex (A1 A2 : Allocator) (fs : token.FileSet)
    (ds : list ast.FuncDecl) (st1 st2 : Store) :
  sameIndex st1 st2 ->
  match visitAll (alloc := A1) fs ds st1, visitAll (alloc := A2) fs ds st2 with
  | Ok st1', Ok st2' => sameIndex st1' st2'
  | Panic e1, Panic e2 => e1 = e2
  | _, _ => False
  end.
Proof.
  revert st1 st2. induction ds as [|d ds IH]; intros st1 st2 Hst; cbn [visitAll].
  - exact Hst.
  - pose proof (visitFuncDecl_sameIndex A1 A2 fs d st1 st2 Hst) as Hd.
    destruct (visitFuncDecl (alloc := A1) fs d st1),
             (visitFuncDecl (alloc := A2) fs d st2); try contradiction.
    + apply IH, Hd.
    + exact Hd.
Qed.

(** Two runs of [getLineRanges] on one parsed source build the same index,
    wherever the allocator puts the objects. *)
Lemma getLineRanges_sameIndex (A1 A2 : Allocator) (p : Parsed) (st1 st2 : Store) :
  sameIndex st1 st2 ->
  match getLineRanges (alloc := A1) p st1, getLineRanges (alloc := A2) p st2 with
  | Ok st1', Ok st2' => sameIndex st1' st2'
  | Panic e1, Panic e2 => e1 = e2
  | _, _ => False
  end.
Proof.
  intros Hst. unfold getLineRanges. destruct (must (parse_err p)); [|reflexivity].
  rewrite !Inspect_visitAll. apply visitAll_sameIndex, Hst.
Qed.

Section SameIndex.
Context (st1 st2 : Store) (Hst : sameIndex st1 st2).

Lemma spec_rangeOf_sameIndex (e : dwarf.Entry) :
  match spec_rangeOf (funcs st1) e, spec_rangeOf (funcs st2) e with
  | Some r1, Some r2 => sameRange (heap st1) (heap st2) r1 r2
  | None, None => True
  | _, _ => False
  end.
Proof.
  unfold spec_rangeOf. destruct (dwarf.ETag e =? dwarf.TagSubprogram); [|exact I].
  destruct (dwarf.Val e dwarf.AttrName) as [[name| | | | |]|]; try exact I.
  destruct (dwarf.Val e dwarf.AttrLowpc) as [[|low| | | |]|]; try exact I.
  destruct (dwarf.Val e dwarf.AttrHighpc) as [[|high| | | |]|]; try exact I.
  specialize (Hst (withoutTypeParams name)).
  destruct (funcs st1 !! withoutTypeParams name) as [[l1|]|],
           (funcs st2 !! withoutTypeParams name) as [[l2|]|];
    cbn in Hst |- *; try contradiction; try exact I.
  split; [reflexivity|exact Hst].
Qed.

Lemma collectRanges_sameIndex (items : list dwarf.ReadItem) (r1 r2 : list FuncRange) :
  Forall2 (sameRange (heap st1) (heap st2)) r1 r2 ->
  match collectRanges (funcs st1) items r1, collectRanges (funcs st2) items r2 with
  | Ok r1', Ok r2' => Forall2 (sameRange (heap st1) (heap st2)) r1' r2'
  | Panic e1, Panic e2 => e1 = e2
  | _, _ => False
  end.
Proof.
  revert r1 r2. induction items as [|[e|err] items IH]; intros r1 r2 Hr.
  - exact Hr.
  - rewrite !collectRanges_step. apply IH. apply Forall2_app; [exact Hr|].
    pose proof (spec_rangeOf_sameIndex e) as He.
    destruct (spec_rangeOf (funcs st1) e), (spec_rangeOf (funcs st2) e);
      try contradiction; [|constructor].
    constructor; [exact He|constructor].
  - reflexivity.
Qed.

(** [sort.Slice] moves two slices with the same low addresses alike. *)
Lemma sort_Slice_sameRange {sorter : SliceSorter} (r1 r2 : list FuncRange) :
  Forall2 (sameRange (heap st1) (heap st2)) r1 r2 ->
  Forall2 (sameRange (heap st1) (heap st2))
    (sort_Slice lessLow r1) (sort_Slice lessLow r2).
Proof.
  intros Hr.
  set (left_ := fun t : Z * Z * option loc * option loc =>
                  mkFuncRange (fst (fst t)) (snd (fst t))).
  set (right_ := fun t : Z * Z * option loc * option loc =>
                   mkFuncRange (fst (fst t)) (snd t)).
  set (lessT := fun a b : Z * Z * option loc * option loc =>
                  fst (fst (fst a)) <? fst (fst (fst b))).
  assert (Hpairs : exists ts,
             r1 = map left_ ts /\ r2 = map right_ ts /\
             Forall (fun t => sameFunc (heap st1) (heap st2) (snd (fst t)) (snd t)) ts).
  { induction Hr as [|[rng1 fn1] [rng2 fn2] r1 r2 [Hrng Hfn] _ (ts & -> & -> & Hts)].
    - exists []. repeat constructor.
    - cbn in Hrng, Hfn. subst rng2. exists ((rng1, fn1, fn2) :: ts).
      repeat constructor; assumption. }
  destruct Hpairs as (ts & -> & -> & Hts).
  rewrite (sort_Slice_natural _ _ left_ lessT lessLow ts) by reflexivity.
  rewrite (sort_Slice_natural _ _ right_ lessT lessLow ts) by reflexivity.
  rewrite <- (sort_Slice_perm _ lessT ts) in Hts.
  induction Hts as [|t ts' Ht _ IH]; cbn [map]; constructor; [|exact IH].
  split; [reflexivity|exact Ht].
Qed.

Lemma getFunc_sameRange (pc : Z) (rs1 rs2 : list FuncRange) :
  Forall2 (sameRange (heap st1) (heap st2)) rs1 rs2 ->
  sameFunc (heap st1) (heap st2) (getFunc pc rs1) (getFunc pc rs2).
Proof.
  induction 1 as [|r1 r2 rs1 rs2 [Hrng Hfn] _ IH]; cbn [getFunc]; [exact I|].
  unfold Rng0, Rng1. rewrite Hrng.
  destruct ((fst (Rng r2) <=? pc) && (pc <? snd (Rng r2))); assumption.
Qed.

Lemma checkEntry_sameRange (rs1 rs2 : list FuncRange) (lne : dwarf.LineEntry) :
  Forall2 (sameRange (heap st1) (heap st2)) rs1 rs2 ->
  checkEntry (heap st1) rs1 lne = checkEntry (heap st2) rs2 lne.
Proof.
  intros Hrs. unfold checkEntry.
  pose proof (getFunc_sameRange (dwarf.Address lne) rs1 rs2 Hrs) as Hfn.
  destruct (onlyStmt && negb (dwarf.IsStmt lne)); [reflexivity|].
  destruct (getFunc (dwarf.Address lne) rs1) as [l1|],
           (getFunc (dwarf.Address lne) rs2) as [l2|]; cbn in Hfn;
    try contradiction; [|reflexivity].
  destruct Hfn as (fn & -> & ->). reflexivity.
Qed.

Lemma lineLoop_sameRange (rs1 rs2 : list FuncRange) (items : list dwarf.LineItem) :
  Forall2 (sameRange (heap st1) (heap st2)) rs1 rs2 ->
  lineLoop (heap st1) rs1 items = lineLoop (heap st2) rs2 items.
Proof.
  intros Hrs. induction items as [|[lne|err] items IH]; cbn [lineLoop].
  - reflexivity.
  - rewrite IH, (checkEntry_sameRange rs1 rs2 lne Hrs). reflexivity.
  - reflexivity.
Qed.

Lemma checkLines_sameRange (dw : dwarf.Data) (rs1 rs2 : list FuncRange) :
  Forall2 (sameRange (heap st1) (heap st2)) rs1 rs2 ->
  checkLines dw (heap st1) (funcs st1) rs1 = checkLines dw (heap st2) (funcs st2) rs2.
Proof.
  intros Hrs. unfold checkLines.
  induction (dwarf.entries dw) as [|[e|err] items IH]; cbn [unitLoop].
  - reflexivity.
  - destruct (negb (dwarf.ETag e =? dwarf.TagCompileUnit)); [exact IH|].
    destruct (dwarf.LineReader dw e) as [[prog|]|err]; [|reflexivity|reflexivity].
    rewrite IH, (lineLoop_sameRange rs1 rs2 prog Hrs). reflexivity.
  - reflexivity.
Qed.

(** The checking stages print the same on the same index and the same debug
    information, wherever the index's objects live. *)
Lemma checkStages_sameIndex {sorter : SliceSorter} (dw : dwarf.Data) :
  checkStages dw st1 = checkStages dw st2.
Proof.
  unfold checkStages, getPCRanges.
  assert (Hnil : Forall2 (sameRange (heap st1) (heap st2)) [] []) by constructor.
  pose proof (collectRanges_sameIndex (dwarf.entries dw) [] [] Hnil) as Hr.
  destruct (collectRanges (funcs st1) (dwarf.entries dw) []) as [r1|e1],
           (collectRanges (funcs st2) (dwarf.entries dw) []) as [r2|e2];
    try contradiction.
  - apply checkLines_sameRange, sort_Slice_sameRange, Hr.
  - rewrite Hr. reflexivity.
Qed.

End SameIndex.

Lemma processArg_checkStages {alloc : Allocator} {sorter : SliceSorter}
    (h0 : gmap loc Func) (arg : Input) :
  observable (processArg h0 arg) =
  match getLineRanges (parsed arg) (mkStore h0 ∅) with
  | Panic err => ([], Some err)
  | Ok st =>
      match built arg with
      | CompileFailed out => ([EvCompileError (path arg) out], None)
      | NoContainer => ([], None)
      | Container (Panic err) => ([], Some err)
      | Container (Ok dw) => observable (checkStages dw st)
      end
  end.
Proof.
  unfold processArg, checkStages.
  destruct (getLineRanges (parsed arg) (mkStore h0 ∅)) as [st|err]; [|reflexivity].
  destruct (built arg) as [out| |[dw|err]]; try reflexivity.
  destruct (getPCRanges dw (funcs st)) as [rs|err]; [|reflexivity].
  destruct (checkLines dw (heap st) (funcs st) rs) as [out [[]|err]];
    cbn; rewrite ?app_nil_r; reflexivity.
Qed.

(** C9. Two runs on the same parsed source and the same decoded debug
    information print the same events in the same order and end alike,
    whatever addresses the allocator gives the [Func] objects of each run and
    whatever is on the heap before; in particular the checking stages print
    the same for the two indexes the two runs built. *)
Theorem pipeline_deterministic (A1 A2 : Allocator) (sorter : SliceSorter)
    (h1 h2 : gmap loc Func) (arg : Input) :
  observable (processArg (alloc := A1) h1 arg) =
  observable (processArg (alloc := A2) h2 arg) /\
  forall st1 st2 dw,
    getLineRanges (alloc := A1) (parsed arg) (mkStore h1 ∅) = Ok st1 ->
    getLineRanges (alloc := A2) (parsed arg) (mkStore h2 ∅) = Ok st2 ->
    checkStages dw st1 = checkStages dw st2.
Proof.
  assert (Hinit : sameIndex (mkStore h1 ∅) (mkStore h2 ∅)).
  { intros k. cbn [funcs]. rewrite !lookup_empty. exact I. }
  pose proof (getLineRanges_sameIndex A1 A2 (parsed arg) _ _ Hinit) as Hindex.
  split.
  - rewrite !processArg_checkStages.
    destruct (getLineRanges (alloc := A1) (parsed arg) (mkStore h1 ∅)) as [st1|e1],
             (getLineRanges (alloc := A2) (parsed arg) (mkStore h2 ∅)) as [st2|e2];
      try contradiction.
    + destruct (built arg) as [out| |[dw|err]]; try reflexivity.
      rewrite (checkStages_sameIndex st1 st2 Hindex dw). reflexivity.
    + rewrite Hindex. reflexivity.
  - intros st1 st2 dw H1 H2. rewrite H1, H2 in Hindex.
    apply checkStages_sameIndex, Hindex.
Qed.

(** The example under two allocators and two initial heaps. *)
Lemma pipeline_deterministic_witness :
  observable (processArg (alloc := leastFreeAllocator) (sorter := insertionSorter)
                ∅ (mkInput "x.go" ex_parsed (Container (Ok ex_dw)))) =
  ([EvViolation (mkViolation "file.go" 99 250 "main.Base")], None) /\
  observable (processArg (alloc := reservingAllocator 1%positive) (sorter := insertionSorter)
                ex_heap (mkInput "x.go" ex_parsed (Container (Ok ex_dw)))) =
  ([EvViolation (mkViolation "file.go" 99 250 "main.Base")], None) /\
  checkStages (sorter := insertionSorter) ex_dw (mkStore ex_heap ex_index) =
  checkStages (sorter := insertionSorter) ex_dw
    (mkStore {[ 2%positive := mkFunc "main.Base" 3 5 ]}
             {[ "main.Base" := Some 2%positive ]}).
Proof.
  split; [|split].
  - vm_compute. reflexivity.
  - rewrite <- (proj1 (pipeline_deterministic leastFreeAllocator
                         (reservingAllocator 1%positive) insertionSorter ∅ ex_heap
                         (mkInput "x.go" ex_parsed (Container (Ok ex_dw))))).
    vm_compute. reflexivity.
  - apply (proj2 (pipeline_deterministic leastFreeAllocator
                    (reservingAllocator 1%positive) insertionSorter ∅ ∅
                    (mkInput "x.go" ex_parsed_base (Container (Ok ex_dw))))).
    + vm_compute. reflexivity.
    + vm_compute. reflexivity.
Defined.

(** ** Scenarios *)

(** Names as the compiler writes them for instances, and receivers as the
    source writes them. *)
Example strip_instance_name :
  withoutTypeParams "main.(*Box[go.shape.int]).Get" = "main.(*Box).Get" /\
  withoutTypeParams "main.Base[go.shape.string]" = "main.Base" /\
  withoutTypeParams "main.Pair[go.shape.int,go.shape.string].Swap" = "main.Pair.Swap" /\
  withoutTypeParams "main.main" = "main.main".
Proof. repeat split; reflexivity. Qed.

Example receiver_text :
  exprToString
    (ast.StarExpr (ast.IndexListExpr (ast.Ident "Pair") [ast.Ident "K"; ast.Ident "V"])) =
  "*Pair[K, V]".
Proof. reflexivity. Qed.

(** Parentheses around parentheses are printed once, and a pointer type
    before an index stands in parentheses. *)
Example receiver_text_parens :
  exprToString (ast.ParenExpr (ast.ParenExpr (ast.Ident "T"))) = "(T)" /\
  exprToString (ast.IndexExpr (ast.StarExpr (ast.Ident "T")) (ast.Ident "A")) =
  "(*T)[A]" /\
  exprToString (ast.StarExpr (ast.IndexExpr (ast.Ident "T") (ast.Ident "A"))) =
  "*T[A]".
Proof. repeat split; reflexivity. Qed.

Example base_names :
  filepath.Base "/tmp/x/file.go" = "file.go" /\ filepath.Base "file.go" = "file.go" /\
  filepath.Base "/a/b/" = "b" /\ filepath.Base "" = "." /\ filepath.Base "//" = "/".
Proof. repeat split; reflexivity. Qed.

(** [func Add(a, b int) int { return a + b }] on line 3: an instruction of
    its range with line 3 prints nothing, one with line 99 prints one
    violation. *)
Example scenario_add :
  let h : gmap loc Func := {[ 1%positive := mkFunc "main.Add" 3 3 ]} in
  let rs := [mkFuncRange (4096, 4128) (Some 1%positive)] in
  lineLoop h rs
    [dwarf.LineOk (dwarf.mkLineEntry 4100 (Some (dwarf.mkLineFile "/src/file.go")) 3 true)] =
  ([], Ok tt) /\
  lineLoop h rs
    [dwarf.LineOk (dwarf.mkLineEntry 4100 (Some (dwarf.mkLineFile "/src/file.go")) 99 true)] =
  ([EvViolation (mkViolation "file.go" 99 4100 "main.Add")], Ok tt).
Proof. split; vm_compute; reflexivity. Qed.

(** The whole run on the worked example: the index has both declarations,
    both instances of [Base] resolve to it, and the one entry with a line
    outside lines 3 to 5 is printed. *)
Example scenario_run :
  observable
    (mainLoop (alloc := leastFreeAllocator) (sorter := insertionSorter) ∅
       [mkInput "x.go" ex_parsed (Container (Ok ex_dw))]) =
  ([EvViolation (mkViolation "file.go" 99 250 "main.Base")], None).
Proof. vm_compute. reflexivity. Qed.

(** A read error of the entries ends the run with a panic, after what was
    printed before. *)
Example scenario_read_error :
  checkLines
    (dwarf.mkData (ex_entries ++ [dwarf.ReadErr "decoding dwarf section info"])
                  (ex_lines ex_prog))
    ex_heap ex_index ex_ranges =
  ([EvViolation (mkViolation "file.go" 99 250 "main.Base")],
   Panic "decoding dwarf section info").
Proof. vm_compute. reflexivity. Qed.

(** A compile unit with no line table: [dw.LineReader] gives no reader and
    no error, and the first read of a line entry panics. *)
Example scenario_no_line_table :
  checkLines (dwarf.mkData ex_entries (fun _ => Ok None)) ex_heap ex_index ex_ranges =
  ([], Panic nilDereference).
Proof. vm_compute. reflexivity. Qed.

(** * Further properties of the code *)

(** ** What [withoutTypeParams] cuts *)

Section Cut.
Import strings strings_facts.

(** X1. In a string [p[m]q] where [p] has no [[] and [q] has no []],
    [withoutTypeParams] removes the bracketed part, brackets included,
    whatever [m] holds (brackets too), and keeps [p] and [q]. *)
Theorem withoutTypeParams_cut (p m q : string) :
  Index p "[" = -1 ->
  LastIndex q "]" = -1 ->
  withoutTypeParams (p +:+ "[" +:+ m +:+ "]" +:+ q) = p +:+ q.
Proof.
  intros Hp Hq.
  change ("[" +:+ m +:+ "]" +:+ q) with (String "[" (m +:+ String "]" q)).
  destruct (cut_positions p m q Hp Hq) as (Hi & Hj & Hto & Hfrom).
  unfold withoutTypeParams. rewrite Hi, Hj, Hto, Hfrom.
  pose proof (len_nonneg p). pose proof (len_nonneg m).
  destruct (Z.leb_spec 0 (len p)); [|lia].
  destruct (Z.leb_spec 0 (len p + len m + 1)); [|lia].
  destruct (Z.ltb_spec (len p) (len p + len m + 1)); [|lia].
  reflexivity.
Qed.

(** A generic name of the compiler, cut into its three parts. *)
Lemma withoutTypeParams_cut_witness :
  withoutTypeParams "main.(*Box[go.shape.int,[]uint8]).Get" = "main.(*Box).Get".
Proof.
  apply (withoutTypeParams_cut "main.(*Box" "go.shape.int,[]uint8" ").Get");
    reflexivity.
Defined.

(** X2. [withoutTypeParams] changes a string exactly when some [[] stands
    before some []] in it; its result never has a [[] before a []], and is
    never longer than the input. *)
Theorem withoutTypeParams_changes_iff (s : string) :
  (withoutTypeParams s <> s <-> hasBracketPair s) /\
  ~ hasBracketPair (withoutTypeParams s) /\
  len (withoutTypeParams s) <= len s.
Proof.
  assert (Hdec : hasBracketPair s \/ ~ hasBracketPair s).
  { destruct (Z.leb_spec 0 (Index s "[")) as [Hi|Hi];
      [destruct (Z.leb_spec 0 (LastIndex s "]")) as [Hj|Hj];
       [destruct (Z.ltb_spec (Index s "[") (LastIndex s "]")) as [Hij|Hij]|]|];
      try (right; intros Hs; apply hasBracketPair_guard in Hs; lia).
    left. apply withoutTypeParams_guard_pair; assumption. }
  split; [|split].
  - split.
    + intros Hne. destruct Hdec as [Hs|Hs]; [exact Hs|].
      apply withoutTypeParams_id_iff in Hs. contradiction.
    + intros Hs Heq. apply withoutTypeParams_shorter in Hs. rewrite Heq in Hs. lia.
  - destruct Hdec as [Hs|Hs].
    + destruct (hasBracketPair_guard s Hs) as (Hi & Hj & Hij).
      assert (Hcut : withoutTypeParams s =
                     slice_to s (Index s "[") +:+ slice_from s (LastIndex s "]" + 1)).
      { unfold withoutTypeParams.
        destruct (Z.leb_spec 0 (Index s "[")); [|lia].
        destruct (Z.leb_spec 0 (LastIndex s "]")); [|lia].
        destruct (Z.ltb_spec (Index s "[") (LastIndex s "]")); [|lia].
        reflexivity. }
      rewrite Hcut. apply withoutTypeParams_id_iff, withoutTypeParams_app_fixed.
      * apply Index_take. exact Hi.
      * apply LastIndex_drop.
    + rewrite (proj2 (withoutTypeParams_id_iff s) Hs). exact Hs.
  - destruct Hdec as [Hs|Hs].
    + apply withoutTypeParams_shorter in Hs. lia.
    + rewrite (proj2 (withoutTypeParams_id_iff s) Hs). lia.
Qed.

Lemma str_app_nil_r (p : string) : p +:+ "" = p.
Proof.
  induction p as [|a p IH]; [reflexivity|]. rewrite str_app_cons, IH. reflexivity.
Qed.

(** The text of a type with its type arguments strips to the text of the
    type. *)
Lemma strip_type_args (x args : string) :
  Index x "[" = -1 -> withoutTypeParams (x +:+ "[" +:+ args +:+ "]") = x.
Proof.
  intros Hx.
  change ("[" +:+ args +:+ "]") with (String "[" (args +:+ String "]" "")).
  destruct (cut_positions x args "" Hx eq_refl) as (Hi & Hj & Hto & _).
  unfold withoutTypeParams. rewrite Hi, Hj, Hto.
  pose proof (len_nonneg x). pose proof (len_nonneg args).
  destruct (Z.leb_spec 0 (len x)); [|lia].
  destruct (Z.leb_spec 0 (len x + len args + 1)); [|lia].
  destruct (Z.ltb_spec (len x) (len x + len args + 1)); [|lia].
  cbn [andb].
  pose proof (cut_positions x args "" Hx eq_refl) as (_ & _ & _ & ->).
  apply str_app_nil_r.
Qed.

Lemma strip_plain (x : string) : Index x "[" = -1 -> withoutTypeParams x = x.
Proof. intros Hx. unfold withoutTypeParams. rewrite Hx. reflexivity. Qed.

Lemma Index_star (x : string) : Index x "[" = -1 -> Index ("*" +:+ x) "[" = -1.
Proof.
  intros Hx. change ("*" +:+ x) with (String "*" x).
  rewrite Index_cons, Hx. reflexivity.
Qed.

(** Before an index the printer writes a type as it writes [asOperand] of
    it anywhere. *)
Lemma printExpr_operand (x : ast.Expr) :
  printExpr true x = exprToString (asOperand x).
Proof. destruct x; reflexivity. Qed.

Lemma exprToString_index (x i : ast.Expr) :
  exprToString (ast.IndexExpr x i) =
  exprToString (asOperand x) +:+ "[" +:+ exprToString i +:+ "]".
Proof.
  unfold exprToString at 1. cbn [printExpr]. rewrite printExpr_operand.
  reflexivity.
Qed.

Lemma exprToString_index_list (x : ast.Expr) (is_ : list ast.Expr) :
  exprToString (ast.IndexListExpr x is_) =
  exprToString (asOperand x) +:+ "[" +:+
  String.concat ", " (map exprToString is_) +:+ "]".
Proof.
  unfold exprToString at 1. cbn [printExpr]. rewrite printExpr_operand.
  reflexivity.
Qed.

Lemma exprToString_star (x : ast.Expr) :
  exprToString (ast.StarExpr x) = "*" +:+ exprToString x.
Proof. reflexivity. Qed.

(** X3. The type arguments of a receiver do not matter to the index: a
    method whose receiver type is written [T[A]], [T[A, B]], [*T[A]] or
    [*T[A, B]], with no [[] in the text of [T], is recorded exactly as the
    same method with receiver [T], or [*T]; a pointer type [T] is written in
    parentheses in all of these. *)
Theorem visitFuncDecl_ignores_type_args {alloc : Allocator} (fs : token.FileSet)
    (x i : ast.Expr) (is_ : list ast.Expr) (names : list string)
    (rest : list ast.Field) (name : string) (pos end_ : Z) (st : Store) :
  Index (exprToString (asOperand x)) "[" = -1 ->
  let decl t := ast.mkFuncDecl (Some (ast.mkField names t :: rest)) name pos end_ in
  visitFuncDecl fs (decl (ast.IndexExpr x i)) st =
    visitFuncDecl fs (decl (asOperand x)) st /\
  visitFuncDecl fs (decl (ast.IndexListExpr x is_)) st =
    visitFuncDecl fs (decl (asOperand x)) st /\
  visitFuncDecl fs (decl (ast.StarExpr (ast.IndexExpr x i))) st =
    visitFuncDecl fs (decl (ast.StarExpr (asOperand x))) st /\
  visitFuncDecl fs (decl (ast.StarExpr (ast.IndexListExpr x is_))) st =
    visitFuncDecl fs (decl (ast.StarExpr (asOperand x))) st.
Proof.
  intros Hx decl. subst decl. unfold visitFuncDecl.
  cbn [ast.Recv ast.Name ast.Pos ast.End_ ast.Type_].
  rewrite !exprToString_star, !exprToString_index, !exprToString_index_list.
  rewrite <- !(str_app_assoc "*" (exprToString (asOperand x))).
  rewrite !(strip_type_args _ _ Hx), !(strip_type_args _ _ (Index_star _ Hx)).
  rewrite (strip_plain _ Hx), (strip_plain _ (Index_star _ Hx)).
  repeat split; reflexivity.
Qed.

(** The method [Get] on [*Box[T]] and on [*Box]. *)
Lemma visitFuncDecl_ignores_type_args_witness :
  visitFuncDecl (alloc := leastFreeAllocator) (fun p => token.mkPosition p 1)
    (ast.mkFuncDecl
       (Some [ast.mkField ["t"]
                (ast.StarExpr (ast.IndexExpr (ast.Ident "Box") (ast.Ident "T")))])
       "Get" 10 12) (mkStore ∅ ∅) =
  visitFuncDecl (alloc := leastFreeAllocator) (fun p => token.mkPosition p 1)
    (ast.mkFuncDecl (Some [ast.mkField ["t"] (ast.StarExpr (ast.Ident "Box"))])
       "Get" 10 12) (mkStore ∅ ∅).
Proof.
  refine (proj1 (proj2 (proj2 (visitFuncDecl_ignores_type_args
            (alloc := leastFreeAllocator) (fun p => token.mkPosition p 1)
            (ast.Ident "Box") (ast.Ident "T") [] ["t"] [] "Get" 10 12
            (mkStore ∅ ∅) _)))).
  reflexivity.
Defined.

End Cut.

(** ** The lookup and the order of the ranges *)

Lemma getFunc_owner (pc : Z) (rs : list FuncRange) :
  (exists r, r ∈ rs /\ owns r pc /\ getFunc pc rs = Fn r) \/
  (Forall (fun x => ~ owns x pc) rs /\ getFunc pc rs = None).
Proof.
  destruct (first_owner_split pc rs) as [(pre & r & post & -> & Hpre & Hr)|Hnone].
  - left. exists r. split; [|split; [exact Hr|]].
    + apply elem_of_app. right. apply list_elem_of_here.
    + rewrite getFunc_skip by assumption. apply getFunc_hit, Hr.
  - right. split; [exact Hnone|apply getFunc_none, Hnone].
Qed.

(** X4. When the ranges that contain an address all point to one function
    (as ranges that do not overlap do), [getFunc] gives the same answer on
    any rearrangement of the sequence: the order [sort.Slice] leaves does not
    matter to the lookup. *)
Theorem getFunc_order_free (pc : Z) (rs rs' : list FuncRange) :
  Permutation rs rs' ->
  (forall r1 r2, r1 ∈ rs -> r2 ∈ rs -> owns r1 pc -> owns r2 pc -> Fn r1 = Fn r2) ->
  getFunc pc rs = getFunc pc rs'.
Proof.
  intros Hperm Hone.
  destruct (getFunc_owner pc rs) as [(r & Hin & Hr & ->)|[Hnone ->]];
    destruct (getFunc_owner pc rs') as [(r' & Hin' & Hr' & ->)|[Hnone' ->]].
  - apply Hone; try assumption. rewrite Hperm. exact Hin'.
  - rewrite <- Hperm in Hnone'. rewrite Forall_forall in Hnone'.
    exfalso. exact (Hnone' r Hin Hr).
  - rewrite Hperm in Hnone. rewrite Forall_forall in Hnone.
    exfalso. exact (Hnone r' Hin' Hr').
  - reflexivity.
Qed.

(** Address 250 in the ranges of the example, sorted or reversed. *)
Lemma getFunc_order_free_witness :
  getFunc 250 ex_ranges = getFunc 250 (rev ex_ranges).
Proof.
  apply (getFunc_order_free 250 ex_ranges (rev ex_ranges)).
  - apply Permutation_rev.
  - intros r1 r2 H1 H2 _ _.
    assert (Hall : Forall (fun r => Fn r = Some 1%positive) ex_ranges)
      by (repeat constructor).
    rewrite Forall_forall in Hall. rewrite (Hall r1 H1), (Hall r2 H2). reflexivity.
Defined.

(** ** What [getPCRanges] returns and when it panics *)

Lemma collectRanges_panic (fs : gmap string (option loc))
    (items : list dwarf.ReadItem) (r : list FuncRange) (err : string) :
  collectRanges fs items r = Panic err <->
  exists es post, items = (dwarf.ReadEntry <$> es) ++ dwarf.ReadErr err :: post.
Proof.
  split.
  - revert r. induction items as [|[e|err'] items IH]; intros r Hr.
    + discriminate Hr.
    + rewrite collectRanges_step in Hr. apply IH in Hr as (es & post & ->).
      exists (e :: es), post. reflexivity.
    + cbn in Hr. injection Hr as ->. exists [], items. reflexivity.
  - intros (es & post & ->). rewrite collectRanges_app.
    destruct (collectRanges_total fs es r) as [r' ->]. reflexivity.
Qed.

Section RangesOfRecords.
Context {sorter : SliceSorter}.

(** X5. [getPCRanges] panics exactly when a read of the entries fails, with
    the error of the first failed read; the records before it, whatever they
    hold, cause no panic, and what follows it is not read. *)
Theorem getPCRanges_panic_iff (dw : dwarf.Data) (fs : gmap string (option loc))
    (err : string) :
  getPCRanges dw fs = Panic err <->
  exists es post,
    dwarf.entries dw = (dwarf.ReadEntry <$> es) ++ dwarf.ReadErr err :: post.
Proof.
  rewrite <- (collectRanges_panic fs (dwarf.entries dw) [] err).
  unfold getPCRanges.
  destruct (collectRanges fs (dwarf.entries dw) []) as [r|err']; split;
    intros H; try discriminate H; exact H.
Qed.

Lemma sort_lessLow_sorted (r : list FuncRange) : sortedByLow (sort_Slice lessLow r).
Proof.
  unfold sortedByLow. eapply StronglySorted_weaken;
    [|apply (sort_Slice_sorted _ lessLow r lessLow_asym lessLow_negtrans)].
  intros a b Hab. cbv beta in Hab. unfold lessLow in Hab. lia.
Qed.

Lemma NoDup_fmap_eq {A B : Type} (f : A -> B) (l : list A) (x y : A) :
  NoDup (f <$> l) -> x ∈ l -> y ∈ l -> f x = f y -> x = y.
Proof.
  induction l as [|a l IH]; intros Hnd Hx Hy Hf.
  - apply not_elem_of_nil in Hx. contradiction.
  - rewrite fmap_cons in Hnd. apply NoDup_cons in Hnd as [Ha Hnd].
    apply elem_of_cons in Hx as [->|Hx]; apply elem_of_cons in Hy as [->|Hy].
    + reflexivity.
    + exfalso. apply Ha. rewrite Hf. apply list_elem_of_fmap. eauto.
    + exfalso. apply Ha. rewrite <- Hf. apply list_elem_of_fmap. eauto.
    + apply IH; assumption.
Qed.

(** X6. When the ranges have distinct low addresses, the result of
    [getPCRanges] does not depend on the order in which the entries are
    read: any rearrangement of the entries gives the same sequence. *)
Theorem getPCRanges_order_free (fs : gmap string (option loc))
    (es es' : list dwarf.ReadItem)
    (lr lr' : dwarf.Entry -> Result (option (list dwarf.LineItem))) (rs : list FuncRange) :
  Permutation es es' ->
  getPCRanges (dwarf.mkData es lr) fs = Ok rs ->
  NoDup (Rng0 <$> rs) ->
  getPCRanges (dwarf.mkData es' lr') fs = Ok rs.
Proof.
  intros Hperm Hrs Hnd.
  destruct (getPCRanges (dwarf.mkData es' lr') fs) as [rs'|err] eqn:Hrs'.
  - f_equal. symmetry.
    assert (Hpp : Permutation rs rs').
    { pose proof (getPCRanges_perm _ _ _ Hrs) as H1.
      pose proof (getPCRanges_perm _ _ _ Hrs') as H2.
      cbn [dwarf.entries] in H1, H2. rewrite H1, H2, Hperm. reflexivity. }
    unfold getPCRanges in Hrs, Hrs'. cbn [dwarf.entries] in Hrs, Hrs'.
    destruct (collectRanges fs es []) as [r|]; [|discriminate].
    destruct (collectRanges fs es' []) as [r'|]; [|discriminate].
    injection Hrs as Hrs. injection Hrs' as Hrs'.
    apply (StronglySorted_unique_strong (fun a b => Rng0 a <= Rng0 b)).
    + intros x1 x2 Hx1 Hx2 H12 H21. rewrite <- Hpp in Hx2.
      apply (NoDup_fmap_eq Rng0 rs); [exact Hnd|assumption..|lia].
    + rewrite <- Hrs. apply sort_lessLow_sorted.
    + rewrite <- Hrs'. apply sort_lessLow_sorted.
    + exact Hpp.
  - exfalso. unfold getPCRanges in Hrs'. cbn [dwarf.entries] in Hrs'.
    destruct (collectRanges fs es' []) as [r'|err'] eqn:Hcollect; [discriminate|].
    injection Hrs' as ->.
    apply collectRanges_panic in Hcollect as (es0 & post & Hes').
    assert (Hin : dwarf.ReadErr err ∈ es).
    { rewrite Hperm, Hes'. apply elem_of_app. right. apply list_elem_of_here. }
    apply list_elem_of_split in Hin as (pre & post' & ->).
    unfold getPCRanges in Hrs. cbn [dwarf.entries] in Hrs.
    rewrite collectRanges_app in Hrs.
    destruct (collectRanges fs pre []); discriminate Hrs.
Qed.

(** X7. An address resolves through the ranges of [getPCRanges] exactly to
    the function the index has for the stripped name of a subprogram record
    with [low <= pc < high]; it resolves to [nil] exactly when no subprogram
    record with a name of the index contains it. *)
Theorem getPCRanges_resolves (dw : dwarf.Data) (fs : gmap string (option loc))
    (rs : list FuncRange) (pc : Z) :
  getPCRanges dw fs = Ok rs ->
  (forall l, getFunc pc rs = Some l ->
     exists e name low high,
       dwarf.ReadEntry e ∈ dwarf.entries dw /\
       dwarf.ETag e = dwarf.TagSubprogram /\
       dwarf.Val e dwarf.AttrName = Some (dwarf.ValString name) /\
       dwarf.Val e dwarf.AttrLowpc = Some (dwarf.ValUint64 low) /\
       dwarf.Val e dwarf.AttrHighpc = Some (dwarf.ValUint64 high) /\
       fs !! withoutTypeParams name = Some (Some l) /\
       low <= pc < high) /\
  (getFunc pc rs = None <->
   forall e name low high l,
     dwarf.ReadEntry e ∈ dwarf.entries dw ->
     dwarf.ETag e = dwarf.TagSubprogram ->
     dwarf.Val e dwarf.AttrName = Some (dwarf.ValString name) ->
     dwarf.Val e dwarf.AttrLowpc = Some (dwarf.ValUint64 low) ->
     dwarf.Val e dwarf.AttrHighpc = Some (dwarf.ValUint64 high) ->
     fs !! withoutTypeParams name = Some (Some l) ->
     ~ (low <= pc < high)).
Proof.
  intros Hrs.
  assert (Horigin : forall r, r ∈ rs ->
            exists e name l,
              dwarf.ReadEntry e ∈ dwarf.entries dw /\
              dwarf.ETag e = dwarf.TagSubprogram /\
              dwarf.Val e dwarf.AttrName = Some (dwarf.ValString name) /\
              dwarf.Val e dwarf.AttrLowpc = Some (dwarf.ValUint64 (Rng0 r)) /\
              dwarf.Val e dwarf.AttrHighpc = Some (dwarf.ValUint64 (Rng1 r)) /\
              fs !! withoutTypeParams name = Some (Some l) /\ Fn r = Some l).
  { intros r Hr. apply (getPCRanges_elem _ _ _ _ Hrs) in Hr as (e & Hin & He).
    apply spec_rangeOf_Some in He as (Ht & name & l & Hn & Hlo & Hhi & Hl & Hfn).
    exists e, name, l. auto 10. }
  split.
  - intros l Hl.
    destruct (getFunc_owner pc rs) as [(r & Hin & Hr & Hget)|[_ Hget]];
      [|congruence].
    destruct (Horigin r Hin) as (e & name & l' & He & Ht & Hn & Hlo & Hhi & Hfs & Hfn).
    exists e, name, (Rng0 r), (Rng1 r).
    assert (l' = l) as -> by congruence. auto 10.
  - split.
    + intros Hnone e name low high l Hin Ht Hn Hlo Hhi Hfs Hpc.
      assert (Hr : mkFuncRange (low, high) (Some l) ∈ rs).
      { apply (getPCRanges_elem _ _ _ _ Hrs). exists e. split; [exact Hin|].
        apply spec_rangeOf_Some. split; [exact Ht|]. exists name, l. auto. }
      destruct (getFunc_owner pc rs) as [(r & Hrin & Hro & Hget)|[Hno _]].
      * destruct (Horigin r Hrin) as (_ & _ & l' & _ & _ & _ & _ & _ & _ & Hfn).
        congruence.
      * rewrite Forall_forall in Hno. exact (Hno _ Hr Hpc).
    + intros Hno. apply getFunc_none. apply Forall_forall. intros r Hr Hown.
      destruct (Horigin r Hr) as (e & name & l & He & Ht & Hn & Hlo & Hhi & Hfs & _).
      exact (Hno e name (Rng0 r) (Rng1 r) l He Ht Hn Hlo Hhi Hfs Hown).
Qed.

End RangesOfRecords.

(** A failed read after the records of the example. *)
Lemma getPCRanges_panic_iff_witness :
  getPCRanges (sorter := insertionSorter)
    (dwarf.mkData (ex_entries ++ dwarf.ReadErr "decoding dwarf section info" ::
                   [dwarf.ReadEntry ex_nolow])
                  (ex_lines ex_prog)) ex_index =
  Panic "decoding dwarf section info".
Proof.
  apply (getPCRanges_panic_iff (sorter := insertionSorter)).
  exists [ex_cu; ex_sub 20 "main.Base[int]" 200 300;
          ex_sub 30 "main.Base[string]" 100 200; ex_sub 40 "main.other" 300 400],
         [dwarf.ReadEntry ex_nolow].
  reflexivity.
Defined.

(** The entries of the example, read backwards. *)
Lemma getPCRanges_order_free_witness :
  getPCRanges (sorter := insertionSorter)
    (dwarf.mkData (rev ex_entries) (ex_lines ex_prog)) ex_index = Ok ex_ranges.
Proof.
  apply (getPCRanges_order_free (sorter := insertionSorter) ex_index
           ex_entries (rev ex_entries) (ex_lines ex_prog) (ex_lines ex_prog)).
  - apply Permutation_rev.
  - reflexivity.
  - unfold ex_ranges, Rng0. cbn.
    apply NoDup_cons. split; [|apply NoDup_singleton].
    intros H. apply list_elem_of_singleton in H. discriminate H.
Defined.

(** Address 250 of the example resolves to the function at location 1,
    through the record of [main.Base[int]]. *)
Lemma getPCRanges_resolves_witness :
  exists e name low high,
    dwarf.ReadEntry e ∈ ex_entries /\
    dwarf.ETag e = dwarf.TagSubprogram /\
    dwarf.Val e dwarf.AttrName = Some (dwarf.ValString name) /\
    dwarf.Val e dwarf.AttrLowpc = Some (dwarf.ValUint64 low) /\
    dwarf.Val e dwarf.AttrHighpc = Some (dwarf.ValUint64 high) /\
    ex_index !! withoutTypeParams name = Some (Some 1%positive) /\
    low <= 250 < high.
Proof.
  apply (proj1 (getPCRanges_resolves (sorter := insertionSorter)
                  ex_dw ex_index ex_ranges 250 eq_refl) 1%positive).
  reflexivity.
Defined.

(** ** What the index holds *)

(** The entries of the index come from the declarations [ds]: each is a
    pointer to an object that was not on the heap [h0], a [Func] named by its
    key with the lines of a declaration of [ds] with that canonical name; and
    the objects of [h0] are as they were. *)
Definition indexOf (fs : token.FileSet) (h0 : gmap loc Func)
    (ds : list ast.FuncDecl) (st : Store) : Prop :=
  h0 ⊆ heap st /\
  forall k p,
    funcs st !! k = Some p ->
    exists l d,
      p = Some l /\ h0 !! l = None /\ d ∈ ds /\ spec_canonicalName d = Some k /\
      heap st !! l =
        Some (mkFunc k (token.Line (fs (ast.Pos d))) (token.Line (fs (ast.End_ d)))).

Section IndexInvariant.
Context {alloc : Allocator}.

Lemma visitAll_indexOf (fs : token.FileSet) (h0 : gmap loc Func)
    (ds seen : list ast.FuncDecl) (st st' : Store) :
  indexOf fs h0 seen st ->
  visitAll fs ds st = Ok st' ->
  indexOf fs h0 (seen ++ ds) st'.
Proof.
  revert seen st. induction ds as [|d ds IH]; intros seen st Hinv Hvisit;
    cbn [visitAll] in Hvisit.
  - injection Hvisit as <-. rewrite app_nil_r. exact Hinv.
  - destruct (spec_canonicalName d) as [key|] eqn:Hname.
    2: { rewrite (visitFuncDecl_unnamed _ _ _ Hname) in Hvisit. discriminate. }
    rewrite (visitFuncDecl_named _ _ _ _ Hname) in Hvisit.
    replace (seen ++ d :: ds) with ((seen ++ [d]) ++ ds)
      by (rewrite <- app_assoc; reflexivity).
    eapply (IH (seen ++ [d])); [|exact Hvisit]. clear Hvisit IH.
    destruct Hinv as [Hsub Hentries].
    pose proof (alloc_fresh (heap st)) as Hfresh.
    split; cbn [heap funcs].
    + etransitivity; [exact Hsub|]. apply insert_subseteq, Hfresh.
    + intros k p Hk. destruct (decide (key = k)) as [<-|Hne].
      * rewrite lookup_insert_eq in Hk. injection Hk as <-.
        exists (alloc_loc (heap st)), d. rewrite lookup_insert_eq.
        repeat split; try reflexivity; try assumption.
        -- eapply lookup_weaken_None; eassumption.
        -- apply elem_of_app. right. apply list_elem_of_singleton. reflexivity.
      * rewrite lookup_insert_ne in Hk by exact Hne.
        destruct (Hentries k p Hk) as (l & d' & -> & Hl0 & Hd' & Hn' & Hl).
        exists l, d'. repeat split; try assumption.
        -- apply elem_of_app. left. exact Hd'.
        -- rewrite lookup_insert_ne; [exact Hl|]. intros Heq.
           rewrite Heq in Hfresh. congruence.
Qed.

Lemma visitAll_has_name (fs : token.FileSet) (ds : list ast.FuncDecl)
    (st st' : Store) (d : ast.FuncDecl) (key : string) :
  visitAll fs ds st = Ok st' -> d ∈ ds -> spec_canonicalName d = Some key ->
  is_Some (funcs st' !! key).
Proof.
  intros Hvisit Hd Hname. apply list_elem_of_split in Hd as (pre & post & ->).
  rewrite visitAll_app in Hvisit.
  destruct (visitAll fs pre st) as [st1|]; [|discriminate].
  cbn [visitAll] in Hvisit. rewrite (visitFuncDecl_named _ _ _ _ Hname) in Hvisit.
  eapply visitAll_keeps_name in Hvisit as (l & fn & Hl & _).
  - rewrite Hl. eauto.
  - cbn [heap funcs]. eexists _, _. rewrite !lookup_insert_eq. eauto.
Qed.

(** X8. In the index [getLineRanges] builds from an empty map, every entry
    is a non-nil pointer to a [Func] allocated by this run, named by its key,
    with the lines of a declaration of the file that has this canonical name;
    no two names share an object; and what was on the heap before is as it
    was. *)
Theorem getLineRanges_index_entries (p : Parsed) (h0 : gmap loc Func) (st' : Store) :
  getLineRanges p (mkStore h0 ∅) = Ok st' ->
  h0 ⊆ heap st' /\
  (forall k ptr,
     funcs st' !! k = Some ptr ->
     exists l d,
       ptr = Some l /\ h0 !! l = None /\
       d ∈ funcDecls (file p) /\ spec_canonicalName d = Some k /\
       heap st' !! l =
         Some (mkFunc k (token.Line (fset p (ast.Pos d)))
                      (token.Line (fset p (ast.End_ d))))) /\
  (forall k1 k2 l,
     funcs st' !! k1 = Some (Some l) -> funcs st' !! k2 = Some (Some l) -> k1 = k2).
Proof.
  intros Hrun. unfold getLineRanges in Hrun.
  destruct (must (parse_err p)); [|discriminate].
  rewrite Inspect_visitAll in Hrun.
  assert (Hinit : indexOf (fset p) h0 [] (mkStore h0 ∅)).
  { split; [reflexivity|]. intros k ptr Hk. cbn [funcs] in Hk.
    rewrite lookup_empty in Hk. discriminate. }
  destruct (visitAll_indexOf _ _ _ _ _ _ Hinit Hrun) as [Hsub Hentries].
  cbn [app] in Hentries. split; [exact Hsub|]. split; [exact Hentries|].
  intros k1 k2 l H1 H2.
  destruct (Hentries _ _ H1) as (l1 & d1 & [= <-] & _ & _ & _ & Hl1).
  destruct (Hentries _ _ H2) as (l2 & d2 & [= <-] & _ & _ & _ & Hl2).
  rewrite Hl1 in Hl2. congruence.
Qed.

(** X9. The names of the index [getLineRanges] returns are exactly the
    canonical names of the function declarations of the file, added to the
    names the map had. *)
Theorem getLineRanges_names (p : Parsed) (st st' : Store) (k : string) :
  getLineRanges p st = Ok st' ->
  is_Some (funcs st' !! k) <->
  is_Some (funcs st !! k) \/
  exists d, d ∈ funcDecls (file p) /\ spec_canonicalName d = Some k.
Proof.
  intros Hrun. unfold getLineRanges in Hrun.
  destruct (must (parse_err p)); [|discriminate].
  rewrite Inspect_visitAll in Hrun. revert st Hrun.
  induction (funcDecls (file p)) as [|d ds IH]; intros st Hrun; cbn [visitAll] in Hrun.
  - injection Hrun as <-. split; [auto|].
    intros [H|(d & Hd & _)]; [exact H|]. apply not_elem_of_nil in Hd. contradiction.
  - destruct (spec_canonicalName d) as [key|] eqn:Hname.
    2: { rewrite (visitFuncDecl_unnamed _ _ _ Hname) in Hrun. discriminate. }
    rewrite (visitFuncDecl_named _ _ _ _ Hname) in Hrun.
    rewrite (IH _ Hrun). cbn [funcs]. clear IH Hrun.
    destruct (decide (key = k)) as [<-|Hne].
    + rewrite lookup_insert_eq. split; intros _.
      * right. exists d. split; [apply list_elem_of_here|exact Hname].
      * left. eauto.
    + rewrite lookup_insert_ne by exact Hne. split.
      * intros [H|(d' & Hd' & Hn')]; [auto|].
        right. exists d'. split; [apply list_elem_of_further, Hd'|exact Hn'].
      * intros [H|(d' & Hd' & Hn')]; [auto|].
        apply elem_of_cons in Hd' as [->|Hd']; [congruence|]. eauto.
Qed.

Lemma visitAll_panic (fs : token.FileSet) (ds : list ast.FuncDecl) (st : Store)
    (err : string) :
  visitAll fs ds st = Panic err <->
  err = indexOutOfRange /\
  exists d, d ∈ ds /\ ast.Recv d = Some [].
Proof.
  revert st. induction ds as [|d ds IH]; intros st; cbn [visitAll].
  - split; [discriminate|]. intros (_ & d & Hd & _).
    apply not_elem_of_nil in Hd. contradiction.
  - destruct (spec_canonicalName d) as [key|] eqn:Hname.
    + rewrite (visitFuncDecl_named _ _ _ _ Hname), IH. split.
      * intros (He & d' & Hd' & Hr). split; [exact He|].
        exists d'. split; [apply list_elem_of_further, Hd'|exact Hr].
      * intros (He & d' & Hd' & Hr). split; [exact He|].
        apply elem_of_cons in Hd' as [->|Hd']; [|eauto].
        unfold spec_canonicalName in Hname. rewrite Hr in Hname. discriminate.
    + rewrite (visitFuncDecl_unnamed _ _ _ Hname). split.
      * intros [= <-]. split; [reflexivity|]. exists d.
        split; [apply list_elem_of_here|].
        unfold spec_canonicalName in Hname.
        destruct (ast.Recv d) as [[|f rest]|]; [reflexivity|discriminate..].
      * intros (-> & _). reflexivity.
Qed.

(** X10. [getLineRanges] panics in two cases only: with the parser's error
    when the parser gave one, before any declaration is visited; and with an
    index error when the parser gave none and some declaration the walk
    reaches has a receiver list that is not nil but empty. *)
Theorem getLineRanges_panic_iff (p : Parsed) (st : Store) (err : string) :
  getLineRanges p st = Panic err <->
  parse_err p = Some err \/
  (parse_err p = None /\
   err = indexOutOfRange /\
   exists d, d ∈ funcDecls (file p) /\ ast.Recv d = Some []).
Proof.
  unfold getLineRanges. destruct (parse_err p) as [e|]; cbn [must].
  - split.
    + intros [= ->]. left. reflexivity.
    + intros [[= ->]|(H & _)]; [reflexivity|discriminate].
  - rewrite Inspect_visitAll, visitAll_panic. split.
    + intros H. right. split; [reflexivity|exact H].
    + intros [H|(_ & H)]; [discriminate|exact H].
Qed.

End IndexInvariant.

(** The index of the example: the entry of [main.Base]. *)
Lemma getLineRanges_index_entries_witness :
  exists st',
    getLineRanges (alloc := leastFreeAllocator) ex_parsed (mkStore ∅ ∅) = Ok st' /\
    forall ptr,
      funcs st' !! "main.Base" = Some ptr ->
      exists l d,
        ptr = Some l /\ (∅ : gmap loc Func) !! l = None /\
        d ∈ funcDecls (file ex_parsed) /\ spec_canonicalName d = Some "main.Base" /\
        heap st' !! l =
          Some (mkFunc "main.Base"
                  (token.Line (fset ex_parsed (ast.Pos d)))
                  (token.Line (fset ex_parsed (ast.End_ d)))).
Proof.
  destruct (getLineRanges (alloc := leastFreeAllocator) ex_parsed (mkStore ∅ ∅))
    as [st'|err] eqn:Hrun; [|vm_compute in Hrun; discriminate Hrun].
  exists st'. split; [reflexivity|].
  exact (proj1 (proj2 (getLineRanges_index_entries (alloc := leastFreeAllocator)
                         ex_parsed ∅ st' Hrun)) "main.Base").
Defined.

(** The name of the method of the example is in its index. *)
Lemma getLineRanges_names_witness :
  exists st',
    getLineRanges (alloc := leastFreeAllocator) ex_parsed (mkStore ∅ ∅) = Ok st' /\
    is_Some (funcs st' !! "main.(*Box).Get").
Proof.
  destruct (getLineRanges (alloc := leastFreeAllocator) ex_parsed (mkStore ∅ ∅))
    as [st'|err] eqn:Hrun; [|vm_compute in Hrun; discriminate Hrun].
  exists st'. split; [reflexivity|].
  apply (getLineRanges_names (alloc := leastFreeAllocator) ex_parsed (mkStore ∅ ∅)
           st' "main.(*Box).Get" Hrun).
  right.
  exists (ast.mkFuncDecl
            (Some [ast.mkField ["t"]
                     (ast.StarExpr (ast.IndexExpr (ast.Ident "Box") (ast.Ident "T")))])
            "Get" 10 12).
  split; [|reflexivity].
  cbn. apply list_elem_of_further, list_elem_of_here.
Defined.

(** ** What [checkLines] prints *)

(** [ev] is the violation of the line entry [lne]: [getFunc] resolves its
    address to an allocated function, its line is outside the lines of that
    function, it has a file, and [ev] carries the base name of the file, the
    line, the address and the name of the function. *)
Definition violationOf (h : gmap loc Func) (rs : list FuncRange)
    (lne : dwarf.LineEntry) (ev : Event) : Prop :=
  exists l fn file,
    getFunc (dwarf.Address lne) rs = Some l /\ h !! l = Some fn /\
    (dwarf.Line lne < startLine fn \/ endLine fn < dwarf.Line lne) /\
    dwarf.File lne = Some file /\
    ev = EvViolation
           (mkViolation (filepath.Base (dwarf.FileName file))
                        (dwarf.Line lne) (dwarf.Address lne) (Name fn)).

(** A read of a line table that gives a line entry with a file. *)
Definition entryWithFile (it : dwarf.LineItem) : Prop :=
  exists lne file, it = dwarf.LineOk lne /\ dwarf.File lne = Some file.

(** The data can be read to the end: no read of the entries fails, every
    compile unit has a line table, no read of a line table fails, and every
    line entry has a file. *)
Definition readable (dw : dwarf.Data) : Prop :=
  Forall (fun it => exists e, it = dwarf.ReadEntry e) (dwarf.entries dw) /\
  forall cu,
    dwarf.ReadEntry cu ∈ dwarf.entries dw ->
    dwarf.ETag cu = dwarf.TagCompileUnit ->
    exists prog,
      dwarf.LineReader dw cu = Ok (Some prog) /\ Forall entryWithFile prog.

Lemma andThen_events {A B : Type} (a : Output A) (b : Output B) (ev : Event) :
  ev ∈ fst (a >> b) -> ev ∈ fst a \/ ev ∈ fst b.
Proof.
  destruct a as [oa [x|e]], b as [ob rb]; cbn; [|auto].
  rewrite elem_of_app. auto.
Qed.

Lemma checkEntry_events (h : gmap loc Func) (rs : list FuncRange)
    (lne : dwarf.LineEntry) (ev : Event) :
  ev ∈ fst (checkEntry h rs lne) <-> violationOf h rs lne ev.
Proof.
  unfold checkEntry, violationOf. cbn [onlyStmt andb].
  destruct (getFunc (dwarf.Address lne) rs) as [l|].
  2: { cbn. rewrite elem_of_nil. split; [contradiction|].
       intros (l & fn & file & H & _). discriminate. }
  destruct (h !! l) as [fn|] eqn:Hl.
  2: { cbn. rewrite elem_of_nil. split; [contradiction|].
       intros (l' & fn & file & [= <-] & H & _). congruence. }
  rewrite Z.gtb_ltb.
  destruct (dwarf.File lne) as [file|].
  2: { assert (Hnone : forall b : bool,
                fst (if b then @panic unit nilDereference else ret tt) = [])
         by (intros []; reflexivity).
       rewrite Hnone, elem_of_nil. split; [contradiction|].
       intros (l' & fn' & file & _ & _ & _ & Hfile & _). discriminate. }
  destruct (Z.ltb_spec (dwarf.Line lne) (startLine fn)) as [Hlo|Hlo];
    [|destruct (Z.ltb_spec (endLine fn) (dwarf.Line lne)) as [Hhi|Hhi]];
    cbn; rewrite ?list_elem_of_singleton, ?elem_of_nil.
  - split; [intros ->; exists l, fn, file; auto|].
    intros (l' & fn' & file' & [= <-] & Hl' & _ & [= <-] & ->). congruence.
  - split; [intros ->; exists l, fn, file; auto|].
    intros (l' & fn' & file' & [= <-] & Hl' & _ & [= <-] & ->). congruence.
  - split; [contradiction|].
    intros (l' & fn' & file' & [= <-] & Hl' & Hout & _).
    assert (fn' = fn) as -> by congruence. lia.
Qed.

Lemma lineLoop_events (h : gmap loc Func) (rs : list FuncRange)
    (prog : list dwarf.LineItem) (ev : Event) :
  ev ∈ fst (lineLoop h rs prog) ->
  exists lne, dwarf.LineOk lne ∈ prog /\ violationOf h rs lne ev.
Proof.
  induction prog as [|[lne|err] prog IH]; cbn [lineLoop].
  - cbn. intros H. apply not_elem_of_nil in H. contradiction.
  - intros H. apply andThen_events in H as [H|H].
    + exists lne. split; [apply list_elem_of_here|apply checkEntry_events, H].
    + destruct (IH H) as (lne' & Hin & Hv). exists lne'.
      split; [apply list_elem_of_further, Hin|exact Hv].
  - cbn. intros H. apply not_elem_of_nil in H. contradiction.
Qed.

Lemma unitLoop_events (lr : dwarf.Entry -> Result (option (list dwarf.LineItem)))
    (h : gmap loc Func) (rs : list FuncRange) (items : list dwarf.ReadItem)
    (ev : Event) :
  ev ∈ fst (unitLoop lr h rs items) ->
  exists cu prog lne,
    dwarf.ReadEntry cu ∈ items /\ dwarf.ETag cu = dwarf.TagCompileUnit /\
    lr cu = Ok (Some prog) /\ dwarf.LineOk lne ∈ prog /\ violationOf h rs lne ev.
Proof.
  induction items as [|[e|err] items IH]; cbn [unitLoop].
  - cbn. intros H. apply not_elem_of_nil in H. contradiction.
  - destruct (Z.eqb_spec (dwarf.ETag e) dwarf.TagCompileUnit) as [Ht|Ht]; cbn [negb].
    + destruct (lr e) as [[prog|]|err] eqn:Hlr.
      * intros H. apply andThen_events in H as [H|H].
        -- apply lineLoop_events in H as (lne & Hin & Hv).
           exists e, prog, lne. split; [apply list_elem_of_here|auto].
        -- destruct (IH H) as (cu & prog' & lne & Hcu & Hrest).
           exists cu, prog', lne. split; [apply list_elem_of_further, Hcu|exact Hrest].
      * cbn. intros H. apply not_elem_of_nil in H. contradiction.
      * cbn. intros H. apply not_elem_of_nil in H. contradiction.
    + intros H. destruct (IH H) as (cu & prog' & lne & Hcu & Hrest).
      exists cu, prog', lne. split; [apply list_elem_of_further, Hcu|exact Hrest].
  - cbn. intros H. apply not_elem_of_nil in H. contradiction.
Qed.

(** X11. [checkLines] prints nothing but violations: every event it prints,
    whether it ends in a panic or not, is the violation of a line entry of
    the line table of a compile unit among the entries: the address of the
    entry resolves to a function, and its line is below the start line or
    above the end line of that function. *)
Theorem checkLines_prints_only_violations (dw : dwarf.Data) (h : gmap loc Func)
    (fs : gmap string (option loc)) (rs : list FuncRange) (ev : Event) :
  ev ∈ fst (checkLines dw h fs rs) ->
  exists cu prog lne,
    dwarf.ReadEntry cu ∈ dwarf.entries dw /\
    dwarf.ETag cu = dwarf.TagCompileUnit /\
    dwarf.LineReader dw cu = Ok (Some prog) /\
    dwarf.LineOk lne ∈ prog /\
    violationOf h rs lne ev.
Proof.
  unfold checkLines. apply unitLoop_events.
Qed.

Section Readable.
Context (h : gmap loc Func) (rs : list FuncRange).
Hypothesis Hvalid : forall r l, r ∈ rs -> Fn r = Some l -> is_Some (h !! l).

Lemma checkEntry_ok (lne : dwarf.LineEntry) (file : dwarf.LineFile) :
  dwarf.File lne = Some file -> snd (checkEntry h rs lne) = Ok tt.
Proof.
  intros Hfile. unfold checkEntry. cbn [onlyStmt andb]. rewrite Hfile.
  destruct (getFunc_owner (dwarf.Address lne) rs) as [(r & Hin & _ & ->)|[_ ->]];
    [|reflexivity].
  destruct (Fn r) as [l|] eqn:Hfn; [|reflexivity].
  destruct (Hvalid r l Hin Hfn) as [fn ->].
  destruct ((dwarf.Line lne <? startLine fn) || (dwarf.Line lne >? endLine fn));
    reflexivity.
Qed.

Lemma lineLoop_ok (prog : list dwarf.LineItem) :
  Forall entryWithFile prog ->
  snd (lineLoop h rs prog) = Ok tt /\
  forall lne ev,
    dwarf.LineOk lne ∈ prog -> violationOf h rs lne ev ->
    ev ∈ fst (lineLoop h rs prog).
Proof.
  induction 1 as [|it prog (lne & file & -> & Hfile) _ [IHok IHev]]; cbn [lineLoop].
  - split; [reflexivity|]. intros lne ev H. apply not_elem_of_nil in H. contradiction.
  - rewrite (andThen_ok _ _ tt (checkEntry_ok lne file Hfile)). cbn [fst snd].
    split; [exact IHok|]. intros lne' ev Hin Hv. apply elem_of_app.
    apply elem_of_cons in Hin as [[= ->]|Hin].
    + left. apply checkEntry_events, Hv.
    + right. eapply IHev; eassumption.
Qed.

Lemma unitLoop_ok (lr : dwarf.Entry -> Result (option (list dwarf.LineItem)))
    (items : list dwarf.ReadItem) :
  Forall (fun it => exists e, it = dwarf.ReadEntry e) items ->
  (forall cu, dwarf.ReadEntry cu ∈ items -> dwarf.ETag cu = dwarf.TagCompileUnit ->
     exists prog, lr cu = Ok (Some prog) /\ Forall entryWithFile prog) ->
  snd (unitLoop lr h rs items) = Ok tt /\
  forall cu prog lne ev,
    dwarf.ReadEntry cu ∈ items -> dwarf.ETag cu = dwarf.TagCompileUnit ->
    lr cu = Ok (Some prog) -> dwarf.LineOk lne ∈ prog -> violationOf h rs lne ev ->
    ev ∈ fst (unitLoop lr h rs items).
Proof.
  induction 1 as [|it items [e ->] _ IH]; intros Hlr; cbn [unitLoop].
  - split; [reflexivity|]. intros cu prog lne ev H.
    apply not_elem_of_nil in H. contradiction.
  - destruct IH as [IHok IHev].
    { intros cu Hcu. apply Hlr. apply list_elem_of_further, Hcu. }
    destruct (Z.eqb_spec (dwarf.ETag e) dwarf.TagCompileUnit) as [Ht|Ht]; cbn [negb].
    + destruct (Hlr e (list_elem_of_here _ _) Ht) as (prog & Hprog & Hitems).
      rewrite Hprog. destruct (lineLoop_ok prog Hitems) as [Hok Hev].
      rewrite (andThen_ok _ _ tt Hok). cbn [fst snd]. split; [exact IHok|].
      intros cu prog' lne ev Hcu Htag Hlrcu Hlne Hv. apply elem_of_app.
      apply elem_of_cons in Hcu as [[= ->]|Hcu].
      * left. rewrite Hprog in Hlrcu. injection Hlrcu as <-. eapply Hev; eassumption.
      * right. eapply IHev; eassumption.
    + split; [exact IHok|].
      intros cu prog' lne ev Hcu Htag Hlrcu Hlne Hv.
      apply elem_of_cons in Hcu as [[= ->]|Hcu]; [contradiction|].
      eapply IHev; eassumption.
Qed.

End Readable.

(** X12. On data that can be read to the end (no read of the entries or of
    a line table fails, every compile unit has a line table and every line
    entry has a file), with ranges that point to allocated functions,
    [checkLines] does not panic and misses nothing: it prints an event
    exactly when it is the violation of a line entry of the line table of a
    compile unit among the entries. *)
Theorem checkLines_reports_all (dw : dwarf.Data) (h : gmap loc Func)
    (fs : gmap string (option loc)) (rs : list FuncRange) :
  readable dw ->
  (forall r l, r ∈ rs -> Fn r = Some l -> is_Some (h !! l)) ->
  snd (checkLines dw h fs rs) = Ok tt /\
  forall ev,
    ev ∈ fst (checkLines dw h fs rs) <->
    exists cu prog lne,
      dwarf.ReadEntry cu ∈ dwarf.entries dw /\
      dwarf.ETag cu = dwarf.TagCompileUnit /\
      dwarf.LineReader dw cu = Ok (Some prog) /\
      dwarf.LineOk lne ∈ prog /\
      violationOf h rs lne ev.
Proof.
  intros [Hentries Hunits] Hvalid. unfold checkLines.
  destruct (unitLoop_ok h rs Hvalid (dwarf.LineReader dw) (dwarf.entries dw)
              Hentries Hunits) as [Hok Hev].
  split; [exact Hok|]. intros ev. split.
  - apply unitLoop_events.
  - intros (cu & prog & lne & Hcu & Ht & Hlr & Hlne & Hv). eapply Hev; eassumption.
Qed.

Lemma ex_dw_readable : readable ex_dw.
Proof.
  split.
  - unfold ex_dw, ex_entries. cbn [dwarf.entries]. repeat constructor; eauto.
  - intros cu _ _. cbn [ex_dw dwarf.LineReader]. unfold ex_lines.
    destruct (decide (cu = ex_cu)).
    + exists ex_prog. split; [reflexivity|].
      unfold ex_prog, ex_line, entryWithFile, ex_file.
      repeat constructor; eexists _, _; split; reflexivity.
    + exists []. split; [reflexivity|constructor].
Qed.

Lemma ex_ranges_valid (r : FuncRange) (l : loc) :
  r ∈ ex_ranges -> Fn r = Some l -> is_Some (ex_heap !! l).
Proof.
  intros Hr Hl.
  assert (Hall : Forall (fun r => Fn r = Some 1%positive) ex_ranges)
    by (repeat constructor).
  rewrite Forall_forall in Hall. rewrite (Hall r Hr) in Hl. injection Hl as <-.
  eexists. reflexivity.
Qed.

(** The violation of the example, found among the events printed. *)
Lemma checkLines_prints_only_violations_witness :
  exists cu prog lne,
    dwarf.ReadEntry cu ∈ dwarf.entries ex_dw /\
    dwarf.ETag cu = dwarf.TagCompileUnit /\
    dwarf.LineReader ex_dw cu = Ok (Some prog) /\
    dwarf.LineOk lne ∈ prog /\
    violationOf ex_heap ex_ranges lne
      (EvViolation (mkViolation "file.go" 99 250 "main.Base")).
Proof.
  apply (checkLines_prints_only_violations ex_dw ex_heap ex_index ex_ranges).
  vm_compute. apply list_elem_of_here.
Defined.

(** The example is readable: its run does not panic, and the violation of
    the entry at address 250 is printed. *)
Lemma checkLines_reports_all_witness :
  snd (checkLines ex_dw ex_heap ex_index ex_ranges) = Ok tt /\
  EvViolation (mkViolation "file.go" 99 250 "main.Base") ∈
    fst (checkLines ex_dw ex_heap ex_index ex_ranges).
Proof.
  destruct (checkLines_reports_all ex_dw ex_heap ex_index ex_ranges
              ex_dw_readable ex_ranges_valid) as [Hok Hev].
  split; [exact Hok|]. apply Hev.
  exists ex_cu, ex_prog, (dwarf.mkLineEntry 250 ex_file 99 true).
  split; [apply list_elem_of_here|].
  split; [reflexivity|]. split; [reflexivity|].
  split; [apply list_elem_of_further, list_elem_of_here|].
  exists 1%positive, (mkFunc "main.Base" 3 5), (dwarf.mkLineFile "/tmp/x/file.go").
  split; [reflexivity|]. split; [reflexivity|].
  split; [right; cbn; lia|]. split; reflexivity.
Defined.

(** ** The run on one argument, and on all *)

Lemma getLineRanges_indexOf {alloc : Allocator} (p : Parsed) (h0 : gmap loc Func)
    (st : Store) :
  getLineRanges p (mkStore h0 ∅) = Ok st ->
  indexOf (fset p) h0 (funcDecls (file p)) st.
Proof.
  intros Hrun. unfold getLineRanges in Hrun.
  destruct (must (parse_err p)); [|discriminate].
  rewrite Inspect_visitAll in Hrun.
  apply (visitAll_indexOf _ h0 _ [] _ _) in Hrun; [exact Hrun|].
  split; [reflexivity|]. intros k ptr Hk. cbn [funcs] in Hk.
  rewrite lookup_empty in Hk. discriminate.
Qed.

(** X13. Whatever one argument makes [main] print is either the report of
    its failed compilation, or a violation that names a function the source
    file declares, by its canonical name, with a line below the start line or
    above the end line of a declaration of that name. Nothing is printed
    against a name the source does not declare. *)
Theorem processArg_reports_declared {alloc : Allocator} {sorter : SliceSorter}
    (h0 : gmap loc Func) (arg : Input) (ev : Event) :
  ev ∈ fst (processArg h0 arg) ->
  (exists out, built arg = CompileFailed out /\ ev = EvCompileError (path arg) out) \/
  (exists v d,
     ev = EvViolation v /\
     d ∈ funcDecls (file (parsed arg)) /\
     spec_canonicalName d = Some (vFunc v) /\
     (vLine v < token.Line (fset (parsed arg) (ast.Pos d)) \/
      token.Line (fset (parsed arg) (ast.End_ d)) < vLine v)).
Proof.
  unfold processArg.
  destruct (getLineRanges (parsed arg) (mkStore h0 ∅)) as [st|err] eqn:Hindex.
  2: { cbn. intros H. apply not_elem_of_nil in H. contradiction. }
  apply getLineRanges_indexOf in Hindex as [_ Hindex].
  destruct (built arg) as [out| |[dw|err]].
  - cbn. intros H. apply list_elem_of_singleton in H. left. eauto.
  - cbn. intros H. apply not_elem_of_nil in H. contradiction.
  - destruct (getPCRanges dw (funcs st)) as [rs|err] eqn:Hrs.
    2: { cbn. intros H. apply not_elem_of_nil in H. contradiction. }
    intros H. apply andThen_events in H as [H|H].
    2: { cbn in H. apply not_elem_of_nil in H. contradiction. }
    right. unfold checkLines in H.
    apply unitLoop_events in H as (_ & _ & lne & _ & _ & _ & _ & Hv).
    destruct Hv as (l & fn & lfile & Hget & Hl & Hout & _ & ->).
    destruct (getFunc_owner (dwarf.Address lne) rs) as [(r & Hr & _ & Hfn)|[_ Hno]];
      [|congruence].
    rewrite Hget in Hfn.
    apply (getPCRanges_elem _ _ _ _ Hrs) in Hr as (e & _ & He).
    apply spec_rangeOf_Some in He as (_ & name & l' & _ & _ & _ & Hk & Hfn').
    assert (l' = l) as -> by congruence.
    destruct (Hindex _ _ Hk) as (l0 & d & [= <-] & _ & Hd & Hname & Hl0).
    rewrite Hl in Hl0. injection Hl0 as ->.
    eexists _, d. split; [reflexivity|]. cbn in *. auto.
  - cbn. intros H. apply not_elem_of_nil in H. contradiction.
Qed.

(** The violation the example prints names [Base], declared on lines 3 to
    5. *)
Lemma processArg_reports_declared_witness :
  (exists out,
     Container (Ok ex_dw) = CompileFailed out /\
     EvViolation (mkViolation "file.go" 99 250 "main.Base") =
     EvCompileError "x.go" out) \/
  (exists v d,
     EvViolation (mkViolation "file.go" 99 250 "main.Base") = EvViolation v /\
     d ∈ funcDecls (file ex_parsed) /\
     spec_canonicalName d = Some (vFunc v) /\
     (vLine v < token.Line (fset ex_parsed (ast.Pos d)) \/
      token.Line (fset ex_parsed (ast.End_ d)) < vLine v)).
Proof.
  apply (processArg_reports_declared (alloc := leastFreeAllocator)
           (sorter := insertionSorter) ∅
           (mkInput "x.go" ex_parsed (Container (Ok ex_dw)))).
  vm_compute. apply list_elem_of_here.
Defined.

Lemma processArg_observable (A1 A2 : Allocator) (sorter : SliceSorter)
    (h1 h2 : gmap loc Func) (arg : Input) :
  observable (processArg (alloc := A1) h1 arg) =
  observable (processArg (alloc := A2) h2 arg).
Proof.
  assert (Hinit : sameIndex (mkStore h1 ∅) (mkStore h2 ∅)).
  { intros k. cbn [funcs]. rewrite !lookup_empty. exact I. }
  pose proof (getLineRanges_sameIndex A1 A2 (parsed arg) _ _ Hinit) as Hindex.
  rewrite !processArg_checkStages.
  destruct (getLineRanges (alloc := A1) (parsed arg) (mkStore h1 ∅)) as [st1|e1],
           (getLineRanges (alloc := A2) (parsed arg) (mkStore h2 ∅)) as [st2|e2];
    try contradiction.
  - destruct (built arg) as [out| |[dw|err]]; try reflexivity.
    rewrite (checkStages_sameIndex st1 st2 Hindex dw). reflexivity.
  - rewrite Hindex. reflexivity.
Qed.

Lemma mainLoop_any_heap (A1 A2 : Allocator) (sorter : SliceSorter)
    (args : list Input) (h1 h2 : gmap loc Func) :
  mainLoop (alloc := A1) h1 args = mainLoop (alloc := A2) h2 args.
Proof.
  revert h1 h2. induction args as [|arg args IH]; intros h1 h2; cbn [mainLoop].
  - reflexivity.
  - pose proof (processArg_observable A1 A2 sorter h1 h2 arg) as Hobs.
    unfold observable in Hobs.
    destruct (processArg (alloc := A1) h1 arg) as [o1 [h1'|e1]],
             (processArg (alloc := A2) h2 arg) as [o2 [h2'|e2]];
      cbn in Hobs; try discriminate Hobs; cbn [bind].
    + replace o2 with o1 by congruence. rewrite (IH h1' h2'). reflexivity.
    + congruence.
Qed.

(** X14. The arguments of [main] are handled one by one and independently:
    a panic on one argument ends the run with what was printed so far; and
    when an argument is done without a panic (a failed compilation
    included), what follows is what a run on the remaining arguments alone
    prints, whatever the earlier arguments left on the heap. *)
Theorem mainLoop_files_independent (A1 A2 : Allocator) (sorter : SliceSorter)
    (h h' : gmap loc Func) (arg : Input) (rest : list Input) :
  match snd (processArg (alloc := A1) h arg) with
  | Panic err =>
      mainLoop (alloc := A1) h (arg :: rest) =
      (fst (processArg (alloc := A1) h arg), Panic err)
  | Ok _ =>
      mainLoop (alloc := A1) h (arg :: rest) =
      (fst (processArg (alloc := A1) h arg) ++ fst (mainLoop (alloc := A2) h' rest),
       snd (mainLoop (alloc := A2) h' rest))
  end.
Proof.
  cbn [mainLoop].
  destruct (processArg (alloc := A1) h arg) as [out [h1|err]]; cbn [fst snd bind].
  - rewrite (mainLoop_any_heap A1 A2 sorter rest h1 h').
    destruct (mainLoop (alloc := A2) h' rest). reflexivity.
  - reflexivity.
Qed.

(** ** Instances and their declaration *)

Section Instances.
Import strings strings_facts.
Context {alloc : Allocator}.

Lemma Index_prefixed (pre x : string) :
  Index pre "[" = -1 -> Index x "[" = -1 -> Index (pre +:+ x) "[" = -1.
Proof. intros Hpre Hx. rewrite (Index_app "[" pre x Hpre), Hx. reflexivity. Qed.

Lemma strip_prefixed (pre x args : string) :
  Index pre "[" = -1 -> Index x "[" = -1 ->
  withoutTypeParams (pre +:+ x +:+ "[" +:+ args +:+ "]") = pre +:+ x.
Proof.
  intros Hpre Hx. rewrite <- (str_app_assoc pre x).
  apply strip_type_args, Index_prefixed; assumption.
Qed.

Lemma strip_between (pre x args q : string) :
  Index pre "[" = -1 -> Index x "[" = -1 -> LastIndex q "]" = -1 ->
  withoutTypeParams (pre +:+ x +:+ "[" +:+ args +:+ "]" +:+ q) = pre +:+ x +:+ q.
Proof.
  intros Hpre Hx Hq. rewrite <- (str_app_assoc pre x).
  change ("[" +:+ args +:+ "]" +:+ q) with (String "[" (args +:+ String "]" q)).
  rewrite cut_between; [apply str_app_assoc| |exact Hq].
  apply Index_prefixed; assumption.
Qed.

(** X15. Source and debug information meet on one name. A function declared
    as [f] is recorded under ["main.f"], and a subprogram record named
    ["main.f[args]"] gets a range that points to this very [Func]; a method
    [m] declared on the receiver [*T[P]] is recorded under ["main.(*T).m"],
    and a record named ["main.(*T[args]).m"] gets a range that points to it.
    [f] and [T] have no [[], [m] has no []]; [args] is any text. *)
Theorem instance_resolves_to_declaration (fs : token.FileSet) (st : Store)
    (e : dwarf.Entry) (low high : Z) (r : list FuncRange)
    (f T m args : string) (P : ast.Expr) (names : list string) (pos end_ : Z) :
  dwarf.ETag e = dwarf.TagSubprogram ->
  dwarf.Val e dwarf.AttrLowpc = Some (dwarf.ValUint64 low) ->
  dwarf.Val e dwarf.AttrHighpc = Some (dwarf.ValUint64 high) ->
  Index f "[" = -1 -> Index T "[" = -1 -> LastIndex m "]" = -1 ->
  (dwarf.Val e dwarf.AttrName =
     Some (dwarf.ValString ("main." +:+ f +:+ "[" +:+ args +:+ "]")) ->
   exists st',
     visitFuncDecl fs (ast.mkFuncDecl None f pos end_) st = Ok st' /\
     heap st' !! alloc_loc (heap st) =
       Some (mkFunc ("main." +:+ f) (token.Line (fs pos)) (token.Line (fs end_))) /\
     collectRanges (funcs st') [dwarf.ReadEntry e] r =
       Ok (r ++ [mkFuncRange (low, high) (Some (alloc_loc (heap st)))])) /\
  (dwarf.Val e dwarf.AttrName =
     Some (dwarf.ValString ("main.(*" +:+ T +:+ "[" +:+ args +:+ "])." +:+ m)) ->
   exists st',
     visitFuncDecl fs
       (ast.mkFuncDecl
          (Some [ast.mkField names (ast.StarExpr (ast.IndexExpr (ast.Ident T) P))])
          m pos end_) st = Ok st' /\
     heap st' !! alloc_loc (heap st) =
       Some (mkFunc ("main.(*" +:+ T +:+ ")." +:+ m)
                    (token.Line (fs pos)) (token.Line (fs end_))) /\
     collectRanges (funcs st') [dwarf.ReadEntry e] r =
       Ok (r ++ [mkFuncRange (low, high) (Some (alloc_loc (heap st)))])).
Proof.
  intros Ht Hlo Hhi Hf HT Hm. split; intros Hn.
  - rewrite (visitFuncDecl_named fs (ast.mkFuncDecl None f pos end_) st
               ("main." +:+ f) eq_refl).
    eexists. split; [reflexivity|]. cbn [heap funcs ast.Pos ast.End_].
    split; [apply lookup_insert_eq|].
    rewrite collectRanges_step. cbn [collectRanges]. f_equal. f_equal.
    assert (He : spec_rangeOf
                   (<["main." +:+ f := Some (alloc_loc (heap st))]> (funcs st)) e =
                 Some (mkFuncRange (low, high) (Some (alloc_loc (heap st))))).
    { apply spec_rangeOf_Some. split; [exact Ht|].
      exists ("main." +:+ f +:+ "[" +:+ args +:+ "]"), (alloc_loc (heap st)).
      repeat split; try assumption.
      rewrite (strip_prefixed "main." f args eq_refl Hf). apply lookup_insert_eq. }
    rewrite He. reflexivity.
  - assert (Hrecv : withoutTypeParams
                      (exprToString (ast.StarExpr (ast.IndexExpr (ast.Ident T) P))) =
                    "*" +:+ T).
    { rewrite exprToString_star, exprToString_index. cbn [asOperand].
      change (exprToString (ast.Ident T)) with T.
      rewrite <- (str_app_assoc "*" T).
      apply strip_type_args, Index_star, HT. }
    assert (Hname : spec_canonicalName
                      (ast.mkFuncDecl
                         (Some [ast.mkField names
                                  (ast.StarExpr (ast.IndexExpr (ast.Ident T) P))])
                         m pos end_) =
                    Some ("main.(*" +:+ T +:+ ")." +:+ m)).
    { unfold spec_canonicalName. cbn [ast.Recv ast.Name ast.Type_].
      rewrite Hrecv. reflexivity. }
    rewrite (visitFuncDecl_named fs _ st _ Hname).
    eexists. split; [reflexivity|]. cbn [heap funcs ast.Pos ast.End_].
    split; [apply lookup_insert_eq|].
    rewrite collectRanges_step. cbn [collectRanges]. f_equal. f_equal.
    assert (He : spec_rangeOf
                   (<["main.(*" +:+ T +:+ ")." +:+ m := Some (alloc_loc (heap st))]>
                      (funcs st)) e =
                 Some (mkFuncRange (low, high) (Some (alloc_loc (heap st))))).
    { apply spec_rangeOf_Some. split; [exact Ht|].
      exists ("main.(*" +:+ T +:+ "[" +:+ args +:+ "])." +:+ m), (alloc_loc (heap st)).
      repeat split; try assumption.
      change ("main.(*" +:+ T +:+ "[" +:+ args +:+ "])." +:+ m)
        with ("main.(*" +:+ T +:+ "[" +:+ args +:+ "]" +:+ (")." +:+ m)).
      rewrite (strip_between "main.(*" T args (")." +:+ m) eq_refl HT).
      + apply lookup_insert_eq.
      + change (")." +:+ m) with (String ")" (String "." m)).
        rewrite !LastIndex_cons, Hm. reflexivity. }
    rewrite He. reflexivity.
Qed.

End Instances.

(** [func Base[T any]] and the record of [main.Base[go.shape.int]]. *)
Lemma instance_resolves_to_declaration_witness :
  exists st',
    visitFuncDecl (alloc := leastFreeAllocator) (fun p => token.mkPosition p 1)
      (ast.mkFuncDecl None "Base" 3 5) (mkStore ∅ ∅) = Ok st' /\
    heap st' !! 1%positive = Some (mkFunc "main.Base" 3 5) /\
    collectRanges (funcs st')
      [dwarf.ReadEntry (ex_sub 20 "main.Base[go.shape.int]" 200 300)] [] =
    Ok [mkFuncRange (200, 300) (Some 1%positive)].
Proof.
  refine (proj1 (instance_resolves_to_declaration (alloc := leastFreeAllocator)
            (fun p => token.mkPosition p 1) (mkStore ∅ ∅)
            (ex_sub 20 "main.Base[go.shape.int]" 200 300) 200 300 []
            "Base" "Box" "Get" "go.shape.int" (ast.Ident "T") [] 3 5
            eq_refl eq_refl eq_refl eq_refl eq_refl eq_refl) eq_refl).
Defined.

(** ** The earlier copy of [checkLines]

    main.go holds a second, earlier copy of the program. Its [must],
    [getLineRanges], [exprToString], [withoutTypeParams], [getPCRanges] and
    [getFunc] are those above, word for word; its [checkLines] prints the
    name of the file as the line table has it, not its base name, and
    panics on a [nil] file or a [nil] line reader as the later copy does. *)

Definition checkEntryV1 (h : gmap loc Func) (funcRanges : list FuncRange)
    (lne : dwarf.LineEntry) : Output unit :=
  if onlyStmt && negb (dwarf.IsStmt lne) then ret tt
  else
    match getFunc (dwarf.Address lne) funcRanges with
    | None => ret tt
    | Some l =>
        match h !! l with
        | None => panic nilDereference
        | Some fn =>
            if (dwarf.Line lne <? startLine fn) || (dwarf.Line lne >? endLine fn)
            then
              match dwarf.File lne with
              | None => panic nilDereference
              | Some file =>
                  print (EvViolation
                           (mkViolation (dwarf.FileName file)
                                        (dwarf.Line lne) (dwarf.Address lne) (Name fn)))
              end
            else ret tt
        end
    end.

Fixpoint lineLoopV1 (h : gmap loc Func) (funcRanges : list FuncRange)
    (items : list dwarf.LineItem) : Output unit :=
  match items with
  | [] => ret tt
  | dwarf.LineErr err :: _ => panic err
  | dwarf.LineOk lne :: rest =>
      checkEntryV1 h funcRanges lne >> lineLoopV1 h funcRanges rest
  end.

Fixpoint unitLoopV1 (lr : dwarf.Entry -> Result (option (list dwarf.LineItem)))
    (h : gmap loc Func) (funcRanges : list FuncRange)
    (items : list dwarf.ReadItem) : Output unit :=
  match items with
  | [] => ret tt
  | dwarf.ReadErr err :: _ => panic err
  | dwarf.ReadEntry e :: rest =>
      if negb (dwarf.ETag e =? dwarf.TagCompileUnit) then unitLoopV1 lr h funcRanges rest
      else
        match lr e with
        | Panic err => panic err
        | Ok None => panic nilDereference
        | Ok (Some prog) =>
            lineLoopV1 h funcRanges prog >> unitLoopV1 lr h funcRanges rest
        end
  end.

(** main.go, the earlier [checkLines]. *)
Definition checkLinesV1 (dw : dwarf.Data) (h : gmap loc Func)
    (fs : gmap string (option loc)) (funcRanges : list FuncRange) : Output unit :=
  unitLoopV1 (dwarf.LineReader dw) h funcRanges (dwarf.entries dw).

(** A printed violation with the base name of its file for the name. *)
Definition withBaseName (ev : Event) : Event :=
  match ev with
  | EvViolation v =>
      EvViolation (mkViolation (filepath.Base (vFile v)) (vLine v) (vAddress v) (vFunc v))
  | EvCompileError p out => EvCompileError p out
  end.

Definition mapEvents {A : Type} (f : Event -> Event) (o : Output A) : Output A :=
  (map f (fst o), snd o).

Lemma mapEvents_andThen {A B : Type} (f : Event -> Event) (a : Output A) (b : Output B) :
  mapEvents f (a >> b) = mapEvents f a >> mapEvents f b.
Proof.
  destruct a as [oa [x|e]], b as [ob rb]; unfold mapEvents; cbn; [|reflexivity].
  rewrite map_app. reflexivity.
Qed.

Lemma checkEntry_of_V1 (h : gmap loc Func) (rs : list FuncRange)
    (lne : dwarf.LineEntry) :
  checkEntry h rs lne = mapEvents withBaseName (checkEntryV1 h rs lne).
Proof.
  unfold checkEntry, checkEntryV1.
  destruct (onlyStmt && negb (dwarf.IsStmt lne)); [reflexivity|].
  destruct (getFunc (dwarf.Address lne) rs) as [l|]; [|reflexivity].
  destruct (h !! l) as [fn|]; [|reflexivity].
  destruct ((dwarf.Line lne <? startLine fn) || (dwarf.Line lne >? endLine fn));
    [|reflexivity].
  destruct (dwarf.File lne); reflexivity.
Qed.

Lemma lineLoop_of_V1 (h : gmap loc Func) (rs : list FuncRange)
    (prog : list dwarf.LineItem) :
  lineLoop h rs prog = mapEvents withBaseName (lineLoopV1 h rs prog).
Proof.
  induction prog as [|[lne|err] prog IH]; cbn [lineLoop lineLoopV1].
  - reflexivity.
  - rewrite mapEvents_andThen, <- IH, <- checkEntry_of_V1. reflexivity.
  - reflexivity.
Qed.

(** X16. The two copies of [checkLines] in main.go go through the same
    entries, print a violation for the same line entries in the same order,
    and end alike, panic or not; the later copy differs only in printing the
    base name of the file where the earlier prints its whole name. *)
Theorem checkLines_of_V1 (dw : dwarf.Data) (h : gmap loc Func)
    (fs : gmap string (option loc)) (rs : list FuncRange) :
  checkLines dw h fs rs = mapEvents withBaseName (checkLinesV1 dw h fs rs) /\
  length (fst (checkLines dw h fs rs)) = length (fst (checkLinesV1 dw h fs rs)) /\
  snd (checkLines dw h fs rs) = snd (checkLinesV1 dw h fs rs).
Proof.
  assert (Heq : checkLines dw h fs rs =
                mapEvents withBaseName (checkLinesV1 dw h fs rs)).
  { unfold checkLines, checkLinesV1.
    induction (dwarf.entries dw) as [|[e|err] items IH]; cbn [unitLoop unitLoopV1].
    - reflexivity.
    - destruct (negb (dwarf.ETag e =? dwarf.TagCompileUnit)); [exact IH|].
      destruct (dwarf.LineReader dw e) as [[prog|]|err]; [|reflexivity|reflexivity].
      rewrite mapEvents_andThen, <- IH, <- lineLoop_of_V1. reflexivity.
    - reflexivity. }
  split; [exact Heq|]. rewrite Heq. unfold mapEvents. cbn [fst snd].
  split; [apply length_map|reflexivity].
Qed.
